(** * LangExtractor-valid-JP: the chunking, retry and merge layer of
    [src/text_extractor.py] (class [JapaneseTextExtractor]).

    Python values are embedded as follows.
    - A [str] is the list of its Unicode code points ([list N]); [len] is
      the length of that list as an integer.
    - The three dataclasses are records whose [Optional[str]] fields are
      [option str].
    - The extraction client [lx.extract] is external: it is a parameter of
      the development, a function that reads and updates a client state
      and either returns extractions or raises.
    - Effects (client calls, [time.sleep]) are logged in the world state;
      [print] is not modelled.
    - The self-recursive safe extraction operations take fuel, the depth
      of nested calls a run may use; a run that needs more depth has no
      result in the model. What CPython does at its recursion limit is
      not modelled.

    The pure parts of the text source ([src/aozora_fetcher.py]), of the
    report ([src/result_analyzer.py]) and of the command line
    ([src/quick_test.py]) follow the extractor. *)

From Stdlib Require Import ZArith Lia String Ascii.
From stdpp Require Import gmap list.

Local Open Scope Z_scope.

(** ** Strings *)

Abbreviation str := (list N).

Definition len (s : str) : Z := Z.of_nat (length s).

(** Truth value of a string in a condition: [if current_chunk:]. *)
Definition truthy (s : str) : bool :=
  match s with [] => false | _ :: _ => true end.

(** [a or b] on strings. *)
Definition str_or (a b : str) : str := if truthy a then a else b.

(** The terminator the chunker appends, [。] (U+3002). *)
Definition MARU : N := 0x3002%N.

(** The character class of [re.split(r'[。！？\n]', text)]. *)
Definition is_sentence_end (c : N) : bool :=
  (c =? 0x3002)%N || (c =? 0xFF01)%N || (c =? 0xFF1F)%N || (c =? 0x0A)%N.

(** [re.split] on a pattern that matches exactly one character of a class:
    the pieces between the matches, empty pieces included. *)
Fixpoint re_split (sep : N → bool) (text : str) : list str :=
  match text with
  | [] => [[]]
  | c :: rest =>
      if sep c then [] :: re_split sep rest
      else match re_split sep rest with
           | s :: ss => (c :: s) :: ss
           | [] => [[c]]
           end
  end.

(** CPython's [Py_UNICODE_ISSPACE], the characters [str.strip()] removes. *)
Definition Py_UNICODE_ISSPACE (c : N) : bool :=
  ((0x09 <=? c) && (c <=? 0x0D))%N || ((0x1C <=? c) && (c <=? 0x20))%N
  || (c =? 0x85)%N || (c =? 0xA0)%N || (c =? 0x1680)%N
  || ((0x2000 <=? c) && (c <=? 0x200A))%N
  || (c =? 0x2028)%N || (c =? 0x2029)%N || (c =? 0x202F)%N
  || (c =? 0x205F)%N || (c =? 0x3000)%N.

Fixpoint lstrip (s : str) : str :=
  match s with
  | [] => []
  | c :: rest => if Py_UNICODE_ISSPACE c then lstrip rest else s
  end.

Definition rstrip (s : str) : str := reverse (lstrip (reverse s)).

Definition strip (s : str) : str := rstrip (lstrip s).

(** ** The chunker *)

(** One iteration of the [for sentence in sentences] loop of [_chunk_text];
    the state is [(chunks, current_chunk)]. *)
Definition chunk_step (max_size : Z) (st : list str * str) (sentence : str)
  : list str * str :=
  let '(chunks, current_chunk) := st in
  if len current_chunk + len sentence <=? max_size
  then (chunks, current_chunk ++ sentence ++ [MARU])
  else ((if truthy current_chunk then chunks ++ [strip current_chunk]
         else chunks),
        sentence ++ [MARU]).

Definition _chunk_text (text : str) (max_size : Z) : list str :=
  let sentences := re_split is_sentence_end text in
  let '(chunks, current_chunk) :=
    fold_left (chunk_step max_size) sentences ([], []) in
  if truthy current_chunk then chunks ++ [strip current_chunk] else chunks.

(** ** String helpers used by the records and the orchestrator *)

(** A Python literal made of ASCII characters, as code points. *)
Definition lit (s : string) : str :=
  (λ a, N_of_ascii a) <$> list_ascii_of_string s.

(** [不明], [普通] and [一方向], the defaults of the record constructors. *)
Definition FUMEI : str := [0x4E0D; 0x660E]%N.
Definition FUTSUU : str := [0x666E; 0x901A]%N.
Definition IPPOUKOU : str := [0x4E00; 0x65B9; 0x5411]%N.

(** [s.startswith(p)] and [sub in s]. *)
Fixpoint startswith (p s : str) : bool :=
  match p, s with
  | [], _ => true
  | _ :: _, [] => false
  | a :: p', b :: s' => (a =? b)%N && startswith p' s'
  end.

Fixpoint contains (sub s : str) : bool :=
  startswith sub s
  || match s with [] => false | _ :: s' => contains sub s' end.

(** [s.replace(c, "")] for a one-character [c]. *)
Definition remove_char (c : N) (s : str) : str :=
  List.filter (λ x, negb (x =? c)%N) s.

(** ** Records (the three dataclasses) *)

Record Character := mkCharacter {
  name : str;
  gender : str;
  age : option str;
  occupation : option str;
  appearance : option str;
  personality : option str
}.

Record Emotion := mkEmotion {
  emotion_type : str;
  subject : str;
  target : option str;
  intensity : str;
  quote : str
}.

Record Relationship := mkRelationship {
  person1 : str;
  person2 : str;
  relation_type : str;
  direction : str;
  evidence : str
}.

(** ** The extraction client's interface

    The client returns an ordered sequence of extractions, each an
    extracted span with an attribute map; or it raises. *)

Record Extraction := mkExtraction {
  extraction_text : str;
  attributes : gmap str str
}.

(** [attrs.get(k)] and [attrs.get(k, default)]. *)
Definition dict_get (attrs : gmap str str) (k : str) : option str :=
  attrs !! k.

Definition dict_get_or (attrs : gmap str str) (k : str) (dflt : str) : str :=
  default dflt (attrs !! k).

(** Exceptions, each with its text [str(e)]: [json.JSONDecodeError] and
    every other subclass of [Exception]. *)
Inductive exn :=
  | JSONDecodeError (msg : str)
  | OtherError (msg : str).

Definition exn_str (e : exn) : str :=
  match e with JSONDecodeError m => m | OtherError m => m end.

(** The record kind selects the prompt and the examples of a call. *)
Inductive Kind := character | emotion | relationship.

Record ScalingParams := mkScaling {
  extraction_passes : Z;
  max_workers : Z;
  max_char_buffer : Z
}.

Record Request := mkRequest {
  text_or_documents : str;
  kind : Kind;
  scaling : option ScalingParams
}.

Inductive Response :=
  | Extractions (l : list Extraction)
  | Raises (e : exn).

(** ** Record construction

    The constructor calls of [_safe_extract_characters] (lines 342-349),
    [_safe_extract_emotions] (387-393) and [_safe_extract_relationships]
    (430-436); [_extract_with_scaling] repeats them word for word. *)

Definition make_character (extraction : Extraction) : Character :=
  let attrs := attributes extraction in
  {| name := str_or (extraction_text extraction)
                    (dict_get_or attrs (lit "name") FUMEI);
     gender := dict_get_or attrs (lit "gender") FUMEI;
     age := dict_get attrs (lit "age");
     occupation := dict_get attrs (lit "occupation");
     appearance := dict_get attrs (lit "appearance");
     personality := dict_get attrs (lit "personality") |}.

Definition make_emotion (extraction : Extraction) : Emotion :=
  let attrs := attributes extraction in
  {| emotion_type := dict_get_or attrs (lit "emotion_type") FUMEI;
     subject := dict_get_or attrs (lit "subject") FUMEI;
     target := dict_get attrs (lit "target");
     intensity := dict_get_or attrs (lit "intensity") FUTSUU;
     quote := str_or (extraction_text extraction)
                     (dict_get_or attrs (lit "quote") []) |}.

Definition make_relationship (extraction : Extraction) : Relationship :=
  let attrs := attributes extraction in
  {| person1 := dict_get_or attrs (lit "person1") FUMEI;
     person2 := dict_get_or attrs (lit "person2") FUMEI;
     relation_type := dict_get_or attrs (lit "relation_type") FUMEI;
     direction := dict_get_or attrs (lit "direction") IPPOUKOU;
     evidence := str_or (extraction_text extraction)
                        (dict_get_or attrs (lit "evidence") []) |}.

Definition record_of (k : Kind) : Type :=
  match k with
  | character => Character
  | emotion => Emotion
  | relationship => Relationship
  end.

Definition make_record (k : Kind) : Extraction → record_of k :=
  match k with
  | character => make_character
  | emotion => make_emotion
  | relationship => make_relationship
  end.

(** ** Deduplication *)

(** One iteration of the deduplication loops; the state is
    [(seen, unique)]. *)
Definition dedup_step {A} (key : A → str) (st : gset str * list A) (x : A)
  : gset str * list A :=
  let '(seen, unique) := st in
  if decide (key x ∈ seen) then (seen, unique)
  else ({[key x]} ∪ seen, unique ++ [x]).

Definition dedup_by {A} (key : A → str) (l : list A) : list A :=
  (fold_left (dedup_step key) l (∅, [])).2.

(** [f"{rel.person1}_{rel.person2}_{rel.relation_type}"]. *)
Definition rel_key (rel : Relationship) : str :=
  person1 rel ++ lit "_" ++ person2 rel ++ lit "_" ++ relation_type rel.

Definition _deduplicate_relationships (relationships : list Relationship)
  : list Relationship :=
  dedup_by rel_key relationships.

Section Lower.

(** [str.lower()] is Python's Unicode lowercasing; the development holds
    for every such function. *)
Variable str_lower : str → str.

(** [char.name.replace(" ", "").replace("　", "").lower()]. *)
Definition normalized_name (char : Character) : str :=
  str_lower (remove_char 0x3000 (remove_char 0x20 (name char))).

Definition _deduplicate_characters (characters : list Character)
  : list Character :=
  dedup_by normalized_name characters.

End Lower.

(** ** Effects: the world, and computations that may raise *)

Inductive Event :=
  | Call (request : Request)
  | Sleep (seconds : Z).

Inductive Result (A : Type) :=
  | Ok (a : A)
  | Raise (e : exn).
Arguments Ok {A} a.
Arguments Raise {A} e.

(** What the orchestrator returns: the dictionary with the keys
    [characters], [emotions] and [relationships]. *)
Record Results := mkResults {
  characters : list Character;
  emotions : list Emotion;
  relationships : list Relationship
}.

Section Orchestrator.

Variable str_lower : str → str.

(** The extraction client [lx.extract]: any function of the request and of
    the client's own state (the provider, its quota, its randomness). *)
Variable ClientState : Type.
Variable lx_extract : Request → ClientState → Response * ClientState.

Record World := mkWorld {
  client : ClientState;
  log : list Event
}.

(** A computation maps a world to a result and a world, or to [None] when
    the fuel of a recursive call ran out. *)
Definition M (A : Type) : Type := World → option (Result A * World).

Definition ret {A} (a : A) : M A := λ w, Some (Ok a, w).

Definition raise {A} (e : exn) : M A := λ w, Some (Raise e, w).

Definition bind {A B} (m : M A) (k : A → M B) : M B :=
  λ w, match m w with
       | None => None
       | Some (Ok a, w') => k a w'
       | Some (Raise e, w') => Some (Raise e, w')
       end.

(** [try: m except Exception as e: h e]. *)
Definition try_except {A} (m : M A) (h : exn → M A) : M A :=
  λ w, match m w with
       | None => None
       | Some (Ok a, w') => Some (Ok a, w')
       | Some (Raise e, w') => h e w'
       end.

Definition out_of_fuel {A} : M A := λ _, None.

Definition record (ev : Event) (c : ClientState) (w : World) : World :=
  {| client := c; log := log w ++ [ev] |}.

(** One call of [lx.extract]. *)
Definition lx_call (request : Request) : M (list Extraction) :=
  λ w, let '(response, c) := lx_extract request (client w) in
       match response with
       | Extractions l => Some (Ok l, record (Call request) c w)
       | Raises e => Some (Raise e, record (Call request) c w)
       end.

(** [time.sleep(seconds)]. *)
Definition sleep (seconds : Z) : M unit :=
  λ w, Some (Ok tt, record (Sleep seconds) (client w) w).

(** A [for] loop that threads an accumulator. *)
Fixpoint for_each {A S} (body : A → S → M S) (xs : list A) (acc : S) : M S :=
  match xs with
  | [] => ret acc
  | x :: rest => bind (body x acc) (for_each body rest)
  end.

(** ** The safe extraction operations

    [_safe_extract_characters], [_safe_extract_emotions] and
    [_safe_extract_relationships] are the same function up to the prompt
    and the record they build, so they are one function of the kind. *)

Definition plain_request (text : str) (k : Kind) : Request :=
  {| text_or_documents := text; kind := k; scaling := None |}.

(** The retry loop of the [json.JSONDecodeError] handler:
    [for chunk in chunks: try: all.extend(retry(chunk)) except: continue],
    returning [all]. *)
Definition retry_step {R} (retry : str → M (list R)) (chunk : str)
    (all : list R) : M (list R) :=
  try_except (bind (retry chunk) (λ chunk_items, ret (all ++ chunk_items)))
             (λ _, ret all).

Definition retry_chunks {R} (retry : str → M (list R)) (chunks : list str)
  : M (list R) :=
  for_each (retry_step retry) chunks [].

Fixpoint safe_extract (k : Kind) (fuel : nat) (text : str)
  : M (list (record_of k)) :=
  match fuel with
  | O => out_of_fuel
  | S fuel' =>
      try_except
        (bind (lx_call (plain_request text k))
              (λ extractions, ret (make_record k <$> extractions)))
        (λ e,
           match e with
           | JSONDecodeError _ =>
               if len text >? 1000 then
                 let smaller_chunks := _chunk_text text 1000 in
                 retry_chunks (safe_extract k fuel') (take 3 smaller_chunks)
               else ret []
           | OtherError _ => ret []
           end)
  end.

Definition _safe_extract_characters := safe_extract character.
Definition _safe_extract_emotions := safe_extract emotion.
Definition _safe_extract_relationships := safe_extract relationship.

(** ** The plain extraction operations

    [extract_characters] (lines 210-242), [extract_emotions] (244-274)
    and [extract_relationships] (276-306): one client call; any exception
    gives the empty list. They too are one function of the kind. *)

Definition extract_records (k : Kind) (text : str) : M (list (record_of k)) :=
  try_except
    (bind (lx_call (plain_request text k))
          (λ extractions, ret (make_record k <$> extractions)))
    (λ e, ret []).

Definition extract_characters := extract_records character.
Definition extract_emotions := extract_records emotion.
Definition extract_relationships := extract_records relationship.

(** ** Scaling mode *)

Definition scaling_request (text : str) (k : Kind) (passes workers buffer : Z)
  : Request :=
  {| text_or_documents := text; kind := k;
     scaling := Some {| extraction_passes := passes; max_workers := workers;
                        max_char_buffer := buffer |} |}.

Definition _extract_with_scaling (text : str) (extraction_type : Kind)
    (passes workers buffer : Z) : M (list (record_of extraction_type)) :=
  try_except
    (bind (lx_call (scaling_request text extraction_type passes workers buffer))
          (λ extractions, ret (make_record extraction_type <$> extractions)))
    (λ e, raise e).

(** ** The orchestrator *)

(** The three safe extractions of one text, in the order the dictionary
    literal evaluates them. *)
Definition extract_kinds (fuel : nat) (text : str) : M Results :=
  bind (_safe_extract_characters fuel text) (λ cs,
  bind (_safe_extract_emotions fuel text) (λ es,
  bind (_safe_extract_relationships fuel text) (λ rs,
  ret {| characters := cs; emotions := es; relationships := rs |}))).

Definition extend_all (acc chunk_results : Results) : Results :=
  {| characters := characters acc ++ characters chunk_results;
     emotions := emotions acc ++ emotions chunk_results;
     relationships := relationships acc ++ relationships chunk_results |}.

Definition is_rate_limit (e : exn) : bool :=
  contains (lit "429") (exn_str e)
  || contains (lit "RESOURCE_EXHAUSTED") (exn_str e).

(** The body of [for i, chunk in enumerate(chunks, 1)]; [n] is
    [len(chunks)]. The three lists are extended only after all three
    extractions of the chunk returned, so a handler sees them as they were
    before the chunk. *)
Definition process_chunk (fuel : nat) (n : nat) (i : nat) (chunk : str)
    (acc : Results) : M Results :=
  try_except
    (bind (extract_kinds fuel chunk) (λ chunk_results,
     bind (if (i <? n)%nat then sleep 2 else ret tt) (λ _,
     ret (extend_all acc chunk_results))))
    (λ e,
       if is_rate_limit e then
         bind (sleep 60) (λ _,
         try_except
           (bind (extract_kinds fuel chunk) (λ chunk_results,
            ret (extend_all acc chunk_results)))
           (λ retry_e, ret acc))
       else ret acc).

Fixpoint chunk_loop (fuel : nat) (n : nat) (i : nat) (chunks : list str)
    (acc : Results) : M Results :=
  match chunks with
  | [] => ret acc
  | chunk :: rest =>
      bind (process_chunk fuel n i chunk acc) (chunk_loop fuel n (S i) rest)
  end.

Definition no_results : Results :=
  {| characters := []; emotions := []; relationships := [] |}.

(** The scaling attempt of [extract_all]: [Some results] when the three
    scaling calls returned, [None] when one raised (the handler prints and
    falls through). *)
Definition scaled_attempt (text : str) (passes workers buffer : Z)
  : M (option Results) :=
  try_except
    (bind (_extract_with_scaling text character passes workers buffer) (λ cs,
     bind (_extract_with_scaling text emotion passes workers buffer) (λ es,
     bind (_extract_with_scaling text relationship passes workers buffer) (λ rs,
     ret (Some {| characters := cs; emotions := es; relationships := rs |})))))
    (λ e, ret None).

(** The chunked (fallback) branch. *)
Definition chunked (fuel : nat) (text : str) (max_chunk_size : Z) : M Results :=
  let chunks := _chunk_text text max_chunk_size in
  bind (chunk_loop fuel (length chunks) 1 chunks no_results) (λ all,
  ret {| characters := _deduplicate_characters str_lower (characters all);
         emotions := emotions all;
         relationships := _deduplicate_relationships (relationships all) |}).

Definition extract_all (fuel : nat) (text : str) (max_chunk_size : Z)
    (use_scaling : bool) (passes workers buffer : Z) : M Results :=
  bind (if use_scaling && (len text >? max_chunk_size)
        then scaled_attempt text passes workers buffer
        else ret None)
       (λ scaled,
          match scaled with
          | Some results => ret results
          | None =>
              if len text >? max_chunk_size
              then chunked fuel text max_chunk_size
              else extract_kinds fuel text
          end).

(** [extract_all(text)] with the defaults of its signature. *)
Definition extract_all_default (fuel : nat) (text : str) : M Results :=
  extract_all fuel text 3000 true 2 10 1000.

End Orchestrator.

Arguments mkWorld {ClientState} client log.
Arguments client {ClientState} w.
Arguments log {ClientState} w.
Arguments ret {ClientState A} a w.
Arguments raise {ClientState A} e w.
Arguments bind {ClientState A B} m k w.
Arguments try_except {ClientState A} m h w.
Arguments out_of_fuel {ClientState A} w.
Arguments record {ClientState} ev c w.
Arguments lx_call {ClientState} lx_extract request w.
Arguments sleep {ClientState} seconds w.
Arguments for_each {ClientState A S} body xs acc.
Arguments retry_step {ClientState R} retry chunk all.
Arguments retry_chunks {ClientState R} retry chunks.
Arguments safe_extract {ClientState} lx_extract k fuel text.
Arguments _safe_extract_characters {ClientState} lx_extract fuel text.
Arguments _safe_extract_emotions {ClientState} lx_extract fuel text.
Arguments _safe_extract_relationships {ClientState} lx_extract fuel text.
Arguments extract_records {ClientState} lx_extract k text.
Arguments extract_characters {ClientState} lx_extract text.
Arguments extract_emotions {ClientState} lx_extract text.
Arguments extract_relationships {ClientState} lx_extract text.
Arguments _extract_with_scaling {ClientState} lx_extract text extraction_type
  passes workers buffer.
Arguments extract_kinds {ClientState} lx_extract fuel text.
Arguments process_chunk {ClientState} lx_extract fuel n i chunk acc.
Arguments chunk_loop {ClientState} lx_extract fuel n i chunks acc.
Arguments scaled_attempt {ClientState} lx_extract text passes workers buffer.
Arguments chunked str_lower {ClientState} lx_extract fuel text max_chunk_size.
Arguments extract_all str_lower {ClientState} lx_extract fuel text
  max_chunk_size use_scaling passes workers buffer.
Arguments extract_all_default str_lower {ClientState} lx_extract fuel text.

(** * The text source: [src/aozora_fetcher.py] *)

(** ** [TextNormalizer] *)

(** [re.sub(r'\r\n', '\n', text)]. *)
Fixpoint sub_crlf (text : str) : str :=
  match text with
  | [] => []
  | c :: rest =>
      match rest with
      | d :: rest' =>
          if (c =? 0x0D)%N && (d =? 0x0A)%N then 0x0A%N :: sub_crlf rest'
          else c :: sub_crlf rest
      | [] => [c]
      end
  end.

(** A substitution that shortens runs of one character [c]: an occurrence
    of [c] is dropped exactly when [tail] follows it. *)
Fixpoint drop_before (c : N) (tail : str) (text : str) : str :=
  match text with
  | [] => []
  | x :: rest =>
      if (x =? c)%N && startswith tail rest then drop_before c tail rest
      else x :: drop_before c tail rest
  end.

(** [re.sub(c+, c, text)] for a character [c], as in [re.sub(r'　+', '　',
    text)] and [re.sub(r' +', ' ', text)]: every run of [c] becomes one
    [c], so a [c] is dropped exactly when another follows it. *)
Definition squeeze (c : N) (text : str) : str := drop_before c [c] text.

(** [re.sub(r'\n\n\n+', '\n\n', text)]: every run of three or more line
    breaks becomes two, so a line break is dropped exactly when two more
    follow it. *)
Definition collapse_blank_lines (text : str) : str :=
  drop_before 0x0A [0x0A; 0x0A]%N text.

(** [text.split(sep)] for a one-character separator, and [sep.join]. *)
Definition str_split (sep : N) (text : str) : list str :=
  re_split (N.eqb sep) text.

Fixpoint str_join (sep : str) (parts : list str) : str :=
  match parts with
  | [] => []
  | p :: rest =>
      match rest with
      | [] => p
      | _ :: _ => p ++ sep ++ str_join sep rest
      end
  end.

(** [any(marker in line for marker in markers)]. *)
Definition any_marker_in (markers : list str) (line : str) : bool :=
  existsb (λ marker, contains marker line) markers.

(** [-------] and [【テキスト中に現れる記号について】]. *)
Definition HEADER_MARKERS : list str :=
  [ lit "-------";
    [0x3010; 0x30C6; 0x30AD; 0x30B9; 0x30C8; 0x4E2D; 0x306B; 0x73FE; 0x308C;
     0x308B; 0x8A18; 0x53F7; 0x306B; 0x3064; 0x3044; 0x3066; 0x3011]%N ].

(** [底本：], [入力：], [校正：] and [※［＃]. *)
Definition FOOTER_MARKERS : list str :=
  [ [0x5E95; 0x672C; 0xFF1A]%N; [0x5165; 0x529B; 0xFF1A]%N;
    [0x6821; 0x6B63; 0xFF1A]%N; [0x203B; 0xFF3B; 0xFF03]%N ].

(** The index the first loop of [_remove_headers_footers] stops at: the
    first line that satisfies [p], counted from [i]. *)
Fixpoint first_index (p : str → bool) (lines : list str) (i : nat)
  : option nat :=
  match lines with
  | [] => None
  | line :: rest => if p line then Some i else first_index p rest (S i)
  end.

(** The index the second loop stops at, going down from the last line:
    the last line that satisfies [p]. *)
Fixpoint last_index (p : str → bool) (lines : list str) (i : nat)
  : option nat :=
  match lines with
  | [] => None
  | line :: rest =>
      match last_index p rest (S i) with
      | Some j => Some j
      | None => if p line then Some i else None
      end
  end.

(** [lines[start:end]] for indices within the list. *)
Definition slice {A} (l : list A) (start_idx end_idx : nat) : list A :=
  take (end_idx - start_idx) (drop start_idx l).

Definition _remove_headers_footers (text : str) : str :=
  let lines := str_split 0x0A text in
  let start_idx :=
    match first_index (any_marker_in HEADER_MARKERS) lines 0 with
    | Some i => S i
    | None => 0%nat
    end in
  let end_idx :=
    match last_index (any_marker_in FOOTER_MARKERS) lines 0 with
    | Some i => i
    | None => length lines
    end in
  str_join [0x0A%N] (slice lines start_idx end_idx).

Section Normalizer.

(** Steps 1 and 2 of [normalize], the [re.sub] calls of [RUBY_PATTERNS]
    and [ANNOTATION_PATTERNS], are Python's regular expression engine at
    work; what follows holds for whatever text they give. *)
Variable remove_markup : str → str.

Definition normalize (text : str) : str :=
  let text := remove_markup text in
  let text := sub_crlf text in
  let text := squeeze 0x3000 text in
  let text := collapse_blank_lines text in
  let text := squeeze 0x20 text in
  let text := _remove_headers_footers text in
  strip text.

(** ** [AozoraFetcher] *)

Record WorkInfo := mkWorkInfo { author : str; url : str }.

Definition RASHOMON : str := [0x7F85; 0x751F; 0x9580]%N.
Definition BOTCHAN : str := [0x574A; 0x3063; 0x3061; 0x3083; 0x3093]%N.
Definition MELOS : str := [0x8D70; 0x308C; 0x30E1; 0x30ED; 0x30B9]%N.
Definition GINGA : str := [0x9280; 0x6CB3; 0x9244; 0x9053; 0x306E; 0x591C]%N.

Definition SAMPLE_WORKS : gmap str WorkInfo :=
  list_to_map
    [ (RASHOMON,
       {| author := [0x82A5; 0x5DDD; 0x9F8D; 0x4E4B; 0x4ECB]%N;
          url := lit "https://www.aozora.gr.jp/cards/000879/files/127_15260.html" |});
      (BOTCHAN,
       {| author := [0x590F; 0x76EE; 0x6F31; 0x77F3]%N;
          url := lit "https://www.aozora.gr.jp/cards/000148/files/752_14964.html" |});
      (MELOS,
       {| author := [0x592A; 0x5BB0; 0x6CBB]%N;
          url := lit "https://www.aozora.gr.jp/cards/000035/files/1567_14913.html" |});
      (GINGA,
       {| author := [0x5BAE; 0x6CA2; 0x8CE2; 0x6CBB]%N;
          url := lit "https://www.aozora.gr.jp/cards/000081/files/456_15050.html" |}) ].

(** [fetch_from_url] reads the network and returns the empty string on
    any error: it is any function from the address to a text. *)
Variable fetch_from_url : str → str.

(** [fetch_sample]: [inl] is the [ValueError] for an unknown work. *)
Definition fetch_sample (work_name : str) : str + str :=
  match SAMPLE_WORKS !! work_name with
  | None => inl work_name
  | Some work_info => inr (normalize (fetch_from_url (url work_info)))
  end.

End Normalizer.

(** * The report: [src/result_analyzer.py] *)

(** [Counter(keys)], as the dictionary of the counts. *)
Definition Counter (keys : list str) : gmap str nat :=
  fold_left (λ counts key, <[key := S (default 0%nat (counts !! key))]> counts)
            keys ∅.

Record Stats := mkStats {
  total_characters : nat;
  unique_names : nat;
  total_emotions : nat;
  emotion_types : gmap str nat;
  total_relationships : nat;
  relation_types : gmap str nat;
  gender_distribution : gmap str nat;
  characters_with_emotions : nat
}.

Definition get_summary_stats (results : Results) : Stats :=
  {| total_characters := length (characters results);
     unique_names := size (list_to_set (name <$> characters results) : gset str);
     total_emotions := length (emotions results);
     emotion_types := Counter (emotion_type <$> emotions results);
     total_relationships := length (relationships results);
     relation_types := Counter (relation_type <$> relationships results);
     gender_distribution := Counter (gender <$> characters results);
     characters_with_emotions :=
       size (list_to_set (subject <$> emotions results) : gset str) |}.

(** [s.replace(a, b)] for one-character [a] and [b]. *)
Definition replace_char (a b : N) (s : str) : str :=
  (λ c, if (c =? a)%N then b else c) <$> s.

(** [work_name.replace(" ", "_").replace("/", "_")], the directory name
    of [save_results] and [generate_html_report]. *)
Definition safe_work_name (work_name : str) : str :=
  replace_char 0x2F 0x5F (replace_char 0x20 0x5F work_name).

(** * The command line: [main] of [src/quick_test.py] *)

Definition works : list str := [RASHOMON; BOTCHAN; MELOS; GINGA].

(** [main] either leaves with [sys.exit(1)] or calls
    [quick_analyze(work_name, model_id=model_id)]. *)
Inductive MainOutcome :=
  | SysExit (code : Z)
  | QuickAnalyze (work_name : str) (model_id : option str).

(** [l.index(x)]: the first position of [x], [None] for [ValueError]. *)
Fixpoint list_index (x : str) (l : list str) : option nat :=
  match l with
  | [] => None
  | y :: rest => if decide (y = x) then Some 0%nat else S <$> list_index x rest
  end.

(** The [--model] block: [inl] is [sys.exit(1)], [inr] the model id. *)
Definition model_option (argv : list str) : Z + option str :=
  if decide (lit "--model" ∈ argv) then
    match list_index (lit "--model") argv with
    | Some model_index =>
        if (model_index + 1 <? length argv)%nat
        then inr (argv !! (model_index + 1)%nat)
        else inl 1
    | None => inr None
    end
  else inr None.

(** The loop [for arg in sys.argv[1:]]: [inl] is [sys.exit(1)], [inr] the
    work name the loop ends with. *)
Fixpoint work_argument (model_id : option str) (args : list str) : Z + str :=
  match args with
  | [] => inr RASHOMON
  | arg :: rest =>
      if negb (startswith (lit "--") arg)
         && negb (bool_decide (Some arg = model_id))
      then if decide (arg ∈ works) then inr arg else inl 1
      else work_argument model_id rest
  end.

Definition main (argv : list str) : MainOutcome :=
  match model_option argv with
  | inl code => SysExit code
  | inr model_id =>
      match work_argument model_id (drop 1 argv) with
      | inl code => SysExit code
      | inr work_name => QuickAnalyze work_name model_id
      end
  end.

(** * The constructor of [JapaneseTextExtractor] *)

(** What [__init__] keeps of its arguments and of the environment; the
    prompts and the examples are constants. *)
Record Extractor := mkExtractor {
  extractor_model_id : str;
  extractor_api_key : str
}.

(** The messages of the two [ValueError]s: [OpenAIモデルを使用する場合はOPENAI_API_KEYが必要です]
    and [GeminiモデルまたはGoogle系モデルを使用する場合はGOOGLE_API_KEYが必要です]. *)
Definition OPENAI_KEY_REQUIRED : str :=
  [
    0x4F; 0x70; 0x65; 0x6E; 0x41; 0x49; 0x30E2; 0x30C7; 0x30EB; 0x3092;
    0x4F7F; 0x7528; 0x3059; 0x308B; 0x5834; 0x5408; 0x306F; 0x4F; 0x50;
    0x45; 0x4E; 0x41; 0x49; 0x5F; 0x41; 0x50; 0x49; 0x5F; 0x4B; 0x45; 0x59;
    0x304C; 0x5FC5; 0x8981; 0x3067; 0x3059 ]%N.

Definition GOOGLE_KEY_REQUIRED : str :=
  [
    0x47; 0x65; 0x6D; 0x69; 0x6E; 0x69; 0x30E2; 0x30C7; 0x30EB; 0x307E;
    0x305F; 0x306F; 0x47; 0x6F; 0x6F; 0x67; 0x6C; 0x65; 0x7CFB; 0x30E2;
    0x30C7; 0x30EB; 0x3092; 0x4F7F; 0x7528; 0x3059; 0x308B; 0x5834; 0x5408;
    0x306F; 0x47; 0x4F; 0x4F; 0x47; 0x4C; 0x45; 0x5F; 0x41; 0x50; 0x49;
    0x5F; 0x4B; 0x45; 0x59; 0x304C; 0x5FC5; 0x8981; 0x3067; 0x3059 ]%N.

Section Init.

Variable str_lower : str → str.

(** [os.environ] is a dictionary of strings; [inl] is the [ValueError]. *)
Definition init (environ : gmap str str) (model_id : option str)
  : str + Extractor :=
  let model_id :=
    match model_id with
    | None => default (lit "gemini-2.0-flash-exp")
                      (environ !! lit "LANGEXTRACT_MODEL")
    | Some model_id => model_id
    end in
  if contains (lit "gpt") (str_lower model_id) then
    match environ !! lit "OPENAI_API_KEY" with
    | Some api_key =>
        if truthy api_key
        then inr {| extractor_model_id := model_id;
                    extractor_api_key := api_key |}
        else inl OPENAI_KEY_REQUIRED
    | None => inl OPENAI_KEY_REQUIRED
    end
  else
    match environ !! lit "GOOGLE_API_KEY" with
    | Some api_key =>
        if truthy api_key
        then inr {| extractor_model_id := model_id;
                    extractor_api_key := api_key |}
        else inl GOOGLE_KEY_REQUIRED
    | None => inl GOOGLE_KEY_REQUIRED
    end.

End Init.

(** ** Auxiliary definitions used to state the chunker's properties *)

(** The sentences of a group, each followed by the terminator: what the
    chunker accumulates in [current_chunk]. *)
Definition terminated (group : list str) : str :=
  flat_map (λ s, s ++ [MARU]) group.

(** Removing the inserted terminators from the concatenated chunks: the
    pieces between the terminators; the empty piece after the last one is
    not a sentence. *)
Definition reconstruct (chunks : list str) : list str :=
  removelast (re_split (N.eqb MARU) (concat chunks)).

(** The size a group of sentences may have: within [max_size] plus the
    last terminator, or one sentence that alone exceeds [max_size]. *)
Definition bounded_group (max_size : Z) (group : list str) : Prop :=
  group = [] ∨ len (terminated group) ≤ max_size + 1
  ∨ ∃ s, group = [s] ∧ max_size < len s.

(** The chunks of a partition of the sentences into groups. *)
Definition chunks_of (groups : list (list str)) : list str :=
  (λ g, strip (terminated g)) <$> groups.

(** A chunk's first sentence loses its leading whitespace to [strip]. *)
Definition strip_head (group : list str) : list str :=
  match group with
  | [] => []
  | s :: rest => lstrip s :: rest
  end.

(** ** Auxiliary definitions used to state deduplication *)

(** The deduplication loop as a recursive function of the keys seen so
    far. *)
Fixpoint dedup_from {A} (key : A → str) (seen : gset str) (l : list A)
  : list A :=
  match l with
  | [] => []
  | x :: rest =>
      if decide (key x ∈ seen) then dedup_from key seen rest
      else x :: dedup_from key ({[key x]} ∪ seen) rest
  end.

(** Every element of [l] with no earlier element of the same key is in
    [d]. *)
Definition first_wins {A} (key : A → str) (l d : list A) : Prop :=
  ∀ l1 x l2, l = l1 ++ x :: l2 → Forall (λ y, key y ≠ key x) l1 → x ∈ d.

(** What deduplication by [key] promises: it is idempotent, keeps the
    order of the input, leaves one record per key, and that record is the
    first of its key. *)
Definition dedup_spec {A} (key : A → str) (dedupe : list A → list A) : Prop :=
  ∀ l, dedupe (dedupe l) = dedupe l
       ∧ sublist (dedupe l) l
       ∧ NoDup (key <$> dedupe l)
       ∧ first_wins key l (dedupe l).

(** The triple the relationships are meant to be compared by. *)
Definition rel_triple (rel : Relationship) : str * str * str :=
  (person1 rel, person2 rel, relation_type rel).

(** ** Auxiliary definitions used to state the retry behaviour *)

(** What a sub-chunk adds to the result of the retry loop. *)
Definition contribution {R} (r : Result (list R)) : list R :=
  match r with Ok items => items | Raise _ => [] end.

(** [sub_runs run chunks w items w']: running [run] on the chunks, one
    after the other from world [w], returns every time, ends in world
    [w'], and the contributions concatenated are [items]. *)
Inductive sub_runs {ClientState R} (run : str → M ClientState (list R))
  : list str → World ClientState → list R → World ClientState → Prop :=
  | sub_runs_nil w : sub_runs run [] w [] w
  | sub_runs_cons chunk rest w r w1 items w2 :
      run chunk w = Some (r, w1) →
      sub_runs run rest w1 items w2 →
      sub_runs run (chunk :: rest) w (contribution r ++ items) w2.

(** A client that never answers a plain request for [text] with a
    malformed response. *)
Definition never_malformed {ClientState}
    (lx_extract : Request → ClientState → Response * ClientState)
    (text : str) : Prop :=
  ∀ k st msg c,
    lx_extract (plain_request text k) st ≠ (Raises (JSONDecodeError msg), c).

Definition is_scaling_call (text : str) (ev : Event) : Prop :=
  ∃ k params, ev = Call {| text_or_documents := text; kind := k;
                           scaling := Some params |}.

(** ** Auxiliary definitions used to state what a run logs *)

Definition is_sleep (ev : Event) : bool :=
  match ev with Sleep _ => true | Call _ => false end.

(** A client call outside scaling mode. *)
Definition plain_call (ev : Event) : Prop :=
  ∃ text k, ev = Call (plain_request text k).

(** The events of a run over several chunks, one group per chunk: a
    2-second sleep between the groups of two consecutive chunks, none
    before the first group and none after the last. *)
Fixpoint paced (groups : list (list Event)) : list Event :=
  match groups with
  | [] => []
  | group :: later =>
      match later with
      | [] => group
      | _ :: _ => group ++ Sleep 2 :: paced later
      end
  end.

(** The events of one chunk: the character call on that chunk, then
    client calls outside scaling mode only. *)
Definition chunk_events (chunk : str) (group : list Event) : Prop :=
  ∃ calls, group = Call (plain_request chunk character) :: calls
           ∧ Forall plain_call calls.

(** ** Auxiliary definitions used to state the statistics *)

(** How many times [key] occurs in [keys]. *)
Definition occurrences (key : str) (keys : list str) : nat :=
  length (filter (λ x, x = key) keys).

(** The sum of the counts of a counter. *)
Definition total_count (counts : gmap str nat) : nat :=
  map_fold (λ _ n total, n + total)%nat 0%nat counts.

(** ** Example inputs *)

(** [あ\n　い]: a second paragraph indented with an ideographic space. *)
Definition indented_text : str := [0x3042; 0x0A; 0x3000; 0x3044]%N.

(** [ab。c]: two sentences of two and one characters. *)
Definition two_sentences : str := [0x61; 0x62; 0x3002; 0x63]%N.

(** Two relationships between different pairs of people whose names
    contain an underscore: [a_b]-[c] and [a]-[b_c]. *)
Definition rel_ab_c : Relationship :=
  {| person1 := lit "a_b"; person2 := lit "c"; relation_type := lit "friend";
     direction := IPPOUKOU; evidence := lit "first" |}.

Definition rel_a_bc : Relationship :=
  {| person1 := lit "a"; person2 := lit "b_c"; relation_type := lit "friend";
     direction := IPPOUKOU; evidence := lit "second" |}.

(** A response item with a span and no attribute at all. *)
Definition bare_extraction : Extraction :=
  {| extraction_text := [0x79C1]%N; attributes := ∅ |}.

(** ** Example clients *)

(** The item the example clients return: the text they were given as the
    span, with no attributes. *)
Definition echo (request : Request) : list Extraction :=
  [{| extraction_text := text_or_documents request; attributes := ∅ |}].

(** A client whose state counts the calls made so far and that raises [e]
    on each of its first [n] calls. *)
Definition fails_first (n : nat) (e : exn) (request : Request) (calls : nat)
  : Response * nat :=
  (if (calls <? n)%nat then Raises e else Extractions (echo request), S calls).

(** A client that raises a malformed-response error on every call. *)
Definition always_malformed (request : Request) (st : unit) : Response * unit :=
  (Raises (JSONDecodeError (lit "Expecting value")), st).

(** A client that raises a malformed-response error on texts of more than
    1000 characters. *)
Definition malformed_over_1000 (request : Request) (st : unit)
  : Response * unit :=
  (if len (text_or_documents request) >? 1000
   then Raises (JSONDecodeError (lit "Expecting value"))
   else Extractions (echo request), st).

Definition rate_limit_error : exn :=
  OtherError (lit "429 RESOURCE_EXHAUSTED").

Definition malformed_error : exn :=
  JSONDecodeError (lit "Expecting value").

(** A sentence of 1001 characters with no terminator. *)
Definition long_sentence : str := repeat 0x78%N 1001.

(** Two sentences of 600 characters: 1201 characters in all. *)
Definition two_long_sentences : str :=
  repeat 0x61%N 600 ++ [MARU] ++ repeat 0x62%N 600.

(** [ab。cd]: with [max_chunk_size = 3] it is chunked as [ab。], [cd。]. *)
Definition two_chunks : str := [0x61; 0x62; 0x3002; 0x63; 0x64]%N.

(** [str.lower()] on ASCII letters; it leaves every other code point as
    it is, as Python does for the kana and kanji of the texts. *)
Definition lower_ascii (s : str) : str :=
  (λ c, if (0x41 <=? c)%N && (c <=? 0x5A)%N then (c + 0x20)%N else c) <$> s.

(** The only chunk of [long_sentence]: the sentence with its terminator,
    1002 characters. *)
Definition long_chunk : str := long_sentence ++ [MARU].

(** The two chunks of [two_chunks] at [max_chunk_size = 3]. *)
Definition chunk_ab : str := [0x61; 0x62; 0x3002]%N.
Definition chunk_cd : str := [0x63; 0x64; 0x3002]%N.

(** The two chunks of [two_long_sentences] at 1000 characters. *)
Definition chunk_a600 : str := repeat 0x61%N 600 ++ [MARU].
Definition chunk_b600 : str := repeat 0x62%N 600 ++ [MARU].

(** The world before a run: a fresh client and an empty log. *)
Definition fresh {ClientState} (st : ClientState) : World ClientState :=
  {| client := st; log := [] |}.

(** Three short sentences, 1011 characters in all; the first two fill a
    chunk of 1001 characters. *)
Definition short_sentences : str :=
  repeat 0x61%N 499 ++ [MARU] ++ repeat 0x62%N 500 ++ [MARU] ++ repeat 0x63%N 10.

Definition chunk_1001 : str :=
  repeat 0x61%N 499 ++ [MARU] ++ repeat 0x62%N 500 ++ [MARU].

(** The same relationship found twice, with different evidence. *)
Definition rel_friends : Relationship :=
  {| person1 := [0x30E1; 0x30ED; 0x30B9]%N; person2 := [0x59B9]%N;
     relation_type := [0x5144; 0x59B9]%N;
     direction := IPPOUKOU; evidence := lit "first" |}.

Definition rel_friends_again : Relationship :=
  {| person1 := [0x30E1; 0x30ED; 0x30B9]%N; person2 := [0x59B9]%N;
     relation_type := [0x5144; 0x59B9]%N;
     direction := IPPOUKOU; evidence := lit "second" |}.

(** A client that always succeeds. *)
Definition echo_client (request : Request) (st : unit) : Response * unit :=
  (Extractions (echo request), st).

(** * Verification *)

(** ** Strings *)

Lemma MARU_not_space : Py_UNICODE_ISSPACE MARU = false.
Proof. reflexivity. Qed.

Lemma lstrip_app_nonspace (p q : str) (c : N) :
  Py_UNICODE_ISSPACE c = false → lstrip (p ++ c :: q) = lstrip p ++ c :: q.
Proof.
  intros Hc. induction p as [|a p IH]; simpl.
  - by rewrite Hc.
  - destruct (Py_UNICODE_ISSPACE a); [exact IH | reflexivity].
Qed.

Lemma rstrip_snoc_nonspace (p : str) (c : N) :
  Py_UNICODE_ISSPACE c = false → rstrip (p ++ [c]) = p ++ [c].
Proof.
  intros Hc. unfold rstrip. rewrite reverse_snoc. simpl. rewrite Hc.
  by rewrite reverse_cons, reverse_involutive.
Qed.

Lemma strip_terminated (p : str) : strip (p ++ [MARU]) = lstrip p ++ [MARU].
Proof.
  unfold strip. rewrite (lstrip_app_nonspace p [] MARU MARU_not_space).
  apply rstrip_snoc_nonspace, MARU_not_space.
Qed.

Lemma lstrip_length (s : str) : (length (lstrip s) ≤ length s)%nat.
Proof.
  induction s as [|c s IH]; simpl; [lia|].
  destruct (Py_UNICODE_ISSPACE c); simpl; lia.
Qed.

Lemma lstrip_suffix (s : str) : ∃ p, s = p ++ lstrip s.
Proof.
  induction s as [|c s [p IH]]; simpl.
  - by exists [].
  - destruct (Py_UNICODE_ISSPACE c).
    + exists (c :: p). simpl. by rewrite <- IH.
    + by exists [].
Qed.

Lemma truthy_true (s : str) : truthy s = true ↔ s ≠ [].
Proof. destruct s; simpl; split; congruence. Qed.

(** ** The pieces of [re.split] *)

Lemma re_split_nonempty sep text : re_split sep text ≠ [].
Proof.
  destruct text as [|c rest]; simpl; [done|].
  destruct (sep c); [done|]. by destruct (re_split sep rest).
Qed.

Lemma re_split_no_sep sep text :
  Forall (Forall (λ c, sep c = false)) (re_split sep text).
Proof.
  induction text as [|c rest IH]; simpl.
  - repeat constructor.
  - destruct (sep c) eqn:Hc.
    + constructor; [constructor | exact IH].
    + destruct (re_split sep rest) as [|s ss].
      * repeat constructor. exact Hc.
      * inversion IH; subst. constructor; [by constructor | done].
Qed.

Lemma re_split_terminated (sep : N → bool) (t : N) (g : list str) :
  sep t = true →
  Forall (Forall (λ c, sep c = false)) g →
  re_split sep (flat_map (λ s, s ++ [t]) g) = g ++ [[]].
Proof.
  intros Ht Hg. induction Hg as [|s g Hs Hg IH]; simpl; [done|].
  rewrite <- app_assoc. simpl.
  induction Hs as [|c s Hc Hs IHs]; simpl.
  - by rewrite Ht, IH.
  - by rewrite Hc, IHs.
Qed.

(** ** The chunker groups the sentences *)

Lemma terminated_snoc g s : terminated (g ++ [s]) = terminated g ++ s ++ [MARU].
Proof. unfold terminated. rewrite flat_map_app. simpl. by rewrite app_nil_r. Qed.

Lemma terminated_nil_iff g : terminated g = [] ↔ g = [].
Proof.
  split; [|by intros ->].
  destruct g as [|s g]; [done|]. unfold terminated. simpl.
  intros H. apply app_eq_nil in H as [H _]. by destruct s.
Qed.

Lemma len_app (a b : str) : len (a ++ b) = len a + len b.
Proof. unfold len. rewrite length_app. lia. Qed.

Lemma len_nonneg (a : str) : 0 ≤ len a.
Proof. unfold len. lia. Qed.

Lemma terminated_singleton s : terminated [s] = s ++ [MARU].
Proof. unfold terminated. simpl. by rewrite app_nil_r. Qed.

Lemma chunks_of_snoc groups g :
  chunks_of (groups ++ [g]) = chunks_of groups ++ [strip (terminated g)].
Proof. unfold chunks_of. by rewrite fmap_app. Qed.

Lemma chunk_step_groups max groups g s :
  chunk_step max (chunks_of groups, terminated g) s
  = if len (terminated g) + len s <=? max
    then (chunks_of groups, terminated (g ++ [s]))
    else (chunks_of (if truthy (terminated g) then groups ++ [g] else groups),
          terminated [s]).
Proof.
  unfold chunk_step. rewrite terminated_snoc, terminated_singleton.
  destruct (_ <=? _); [done|].
  destruct (truthy (terminated g)); [|done]. by rewrite chunks_of_snoc.
Qed.

Lemma chunk_fold_groups max ss : ∀ groups g,
  Forall (λ g, g ≠ []) groups →
  Forall (bounded_group max) groups → bounded_group max g →
  ∃ groups' g',
    fold_left (chunk_step max) ss (chunks_of groups, terminated g)
      = (chunks_of groups', terminated g')
    ∧ concat groups' ++ g' = concat groups ++ g ++ ss
    ∧ Forall (λ g, g ≠ []) groups'
    ∧ Forall (bounded_group max) groups' ∧ bounded_group max g'
    ∧ (g ≠ [] ∨ ss ≠ [] → g' ≠ []).
Proof.
  induction ss as [|s ss IH]; intros groups g Hne Hb Hg.
  - exists groups, g. simpl. rewrite app_nil_r. repeat split; try done.
    by intros [?|?].
  - cbn [fold_left]. rewrite chunk_step_groups.
    destruct (len (terminated g) + len s <=? max) eqn:Hfit.
    + apply Z.leb_le in Hfit.
      destruct (IH groups (g ++ [s])) as (groups' & g' & Hf & Hc & Hne' & Hb' & Hg' & Hn);
        [done | done | | ].
      { right; left. rewrite terminated_snoc, !len_app. change (len [MARU]) with 1. lia. }
      exists groups', g'.
      repeat split; try done.
      * rewrite Hc. by rewrite <- !app_assoc.
      * intros _. apply Hn. left. by destruct g.
    + apply Z.leb_gt in Hfit.
      assert (Hs : bounded_group max [s]).
      { destruct (decide (len s ≤ max)) as [Hle|Hgt].
        - right; left. rewrite terminated_singleton, len_app.
          change (len [MARU]) with 1. lia.
        - right; right. exists s. split; [done | lia]. }
      destruct (truthy (terminated g)) eqn:Htr.
      * assert (g ≠ []) as Hgne.
        { intros ->. by simpl in Htr. }
        destruct (IH (groups ++ [g]) [s]) as (groups' & g' & Hf & Hc & Hne' & Hb' & Hg' & Hn).
        { apply Forall_app; split; [done | by constructor]. }
        { apply Forall_app; split; [done | by constructor]. }
        { done. }
        exists groups', g'.
        repeat split; try done.
        -- rewrite Hc, concat_app. simpl. rewrite app_nil_r. by rewrite <- !app_assoc.
        -- intros _. apply Hn. by left.
      * assert (g = []) as ->.
        { apply terminated_nil_iff. by destruct (terminated g). }
        destruct (IH groups [s]) as (groups' & g' & Hf & Hc & Hne' & Hb' & Hg' & Hn);
          [done | done | done | ].
        exists groups', g'.
        repeat split; try done.
        intros _. apply Hn. by left.
Qed.

Lemma chunk_text_groups text max :
  ∃ groups,
    _chunk_text text max = chunks_of groups
    ∧ concat groups = re_split is_sentence_end text
    ∧ Forall (λ g, g ≠ []) groups
    ∧ Forall (bounded_group max) groups.
Proof.
  unfold _chunk_text.
  destruct (chunk_fold_groups max (re_split is_sentence_end text) [] [])
    as (groups & g & Hf & Hc & Hne & Hb & Hg & Hn); [done | done | by left |].
  change (@nil str, @nil N) with (chunks_of [], terminated []).
  rewrite Hf.
  assert (g ≠ []) as Hgne.
  { apply Hn. right. apply re_split_nonempty. }
  assert (truthy (terminated g) = true) as ->.
  { apply truthy_true. by rewrite terminated_nil_iff. }
  exists (groups ++ [g]). unfold chunks_of. rewrite fmap_app. simpl.
  repeat split.
  - rewrite concat_app. simpl. rewrite app_nil_r. exact Hc.
  - apply Forall_app; split; [done | by constructor].
  - apply Forall_app; split; [done | by constructor].
Qed.

Lemma terminated_ends g : g ≠ [] → ∃ p, terminated g = p ++ [MARU].
Proof.
  intros Hg. destruct (exists_last Hg) as (g' & s & ->).
  exists (terminated g' ++ s). by rewrite terminated_snoc, app_assoc.
Qed.

Lemma terminated_cons s g : terminated (s :: g) = s ++ MARU :: terminated g.
Proof. unfold terminated. simpl. by rewrite <- app_assoc. Qed.

Lemma terminated_concat groups :
  terminated (concat groups) = concat (terminated <$> groups).
Proof.
  induction groups as [|g groups IH]; [done|]. simpl.
  unfold terminated in *. by rewrite flat_map_app, IH.
Qed.

Lemma strip_group g : g ≠ [] → strip (terminated g) = terminated (strip_head g).
Proof.
  intros Hg. destruct g as [|s rest]; [done|]. cbn [strip_head].
  unfold strip. rewrite terminated_cons.
  rewrite (lstrip_app_nonspace s _ MARU MARU_not_space).
  rewrite <- terminated_cons.
  destruct (terminated_ends (lstrip s :: rest)) as [p ->]; [done|].
  apply rstrip_snoc_nonspace, MARU_not_space.
Qed.

Lemma chunks_of_strip_head groups :
  Forall (λ g, g ≠ []) groups →
  concat (chunks_of groups) = terminated (concat (strip_head <$> groups)).
Proof.
  intros Hne. rewrite terminated_concat. f_equal. unfold chunks_of.
  rewrite <- list_fmap_compose. apply Forall_fmap_ext_1.
  eapply Forall_impl; [exact Hne|]. intros g Hg. simpl. by apply strip_group.
Qed.

Lemma strip_len_le g : g ≠ [] → len (strip (terminated g)) ≤ len (terminated g).
Proof.
  intros Hg. destruct (terminated_ends g Hg) as [p ->].
  rewrite strip_terminated, !len_app. pose proof (lstrip_length p).
  unfold len. lia.
Qed.

Lemma lstrip_Forall (P : N → Prop) (s : str) : Forall P s → Forall P (lstrip s).
Proof.
  intros H. destruct (lstrip_suffix s) as [p Hp]. rewrite Hp in H.
  by apply Forall_app in H as [_ H].
Qed.

Lemma strip_head_related g :
  Forall2 (λ s r, r = s ∨ r = lstrip s) g (strip_head g).
Proof.
  destruct g as [|s rest]; simpl; constructor; [by right|].
  apply Forall2_same_length_lookup_2; [done|].
  intros i x y Hx Hy. left. congruence.
Qed.

Lemma sentence_has_no_MARU c : is_sentence_end c = false → (MARU =? c)%N = false.
Proof.
  unfold is_sentence_end. intros H.
  apply orb_false_elim in H as [H _]. apply orb_false_elim in H as [H _].
  apply orb_false_elim in H as [H _]. by rewrite N.eqb_sym.
Qed.

(** X3. Every chunk is within [max_size + 1] characters, or is the
    stripped form of one sentence that alone exceeds [max_size]. *)
Lemma chunk_text_size text max :
  Forall (λ chunk,
            len chunk ≤ max + 1
            ∨ ∃ s, s ∈ re_split is_sentence_end text ∧ max < len s
                   ∧ chunk = strip (s ++ [MARU]))
         (_chunk_text text max).
Proof.
  destruct (chunk_text_groups text max) as (groups & -> & Hc & Hne & Hb).
  unfold chunks_of. apply Forall_fmap. apply Forall_forall. intros g Hin. simpl.
  assert (g ≠ []) as Hg by (eapply Forall_forall in Hne; eauto).
  assert (bounded_group max g) as [?|[Hle|(s & -> & Hs)]]
    by (eapply Forall_forall in Hb; eauto); [done | |].
  - left. pose proof (strip_len_le g Hg). lia.
  - right. exists s. rewrite <- Hc, terminated_singleton. repeat split; [|done].
    apply list_elem_of_In, in_concat. exists [s]. split; [by apply list_elem_of_In | by left].
Qed.

(** With no leading whitespace in any sentence the chunks give the
    sentences back exactly. *)
Lemma reconstruct_chunks_of groups :
  Forall (λ g, g ≠ []) groups →
  Forall (Forall (λ c, is_sentence_end c = false)) (concat groups) →
  reconstruct (chunks_of groups) = concat (strip_head <$> groups).
Proof.
  intros Hne Hs. unfold reconstruct. rewrite chunks_of_strip_head by done.
  unfold terminated. rewrite re_split_terminated; [apply removelast_last | apply N.eqb_refl |].
  apply Forall_concat. apply Forall_fmap. apply Forall_forall. intros g Hg. simpl.
  assert (Forall (Forall (λ c, (MARU =? c)%N = false)) g) as Hgs.
  { apply Forall_forall. intros s Hsg.
    assert (s ∈ concat groups) as Hin.
    { apply list_elem_of_In, in_concat. exists g. split; by apply list_elem_of_In. }
    eapply Forall_forall in Hs; [|exact Hin].
    eapply Forall_impl; [exact Hs|]. apply sentence_has_no_MARU. }
  destruct g as [|s rest]; [done|]. simpl. inversion Hgs; subst.
  constructor; [by apply lstrip_Forall | done].
Qed.

(** ** Claims about the chunker *)

(** C10. For every text and every maximum size, each chunk returned by
    [_chunk_text] is a non-empty string whose last character is the
    terminator [。]; and the empty text gives the one-element list
    [["。"]], not the empty list. *)
Theorem chunk_text_chunks_end_in_terminator (text : str) (max_size : Z) :
  Forall (λ chunk, chunk ≠ [] ∧ last chunk = Some MARU)
         (_chunk_text text max_size)
  ∧ _chunk_text [] max_size = [[MARU]].
Proof.
  split.
  - destruct (chunk_text_groups text max_size) as (groups & -> & _ & Hne & _).
    unfold chunks_of. apply Forall_fmap.
    eapply Forall_impl; [exact Hne|]. intros g Hg. simpl.
    destruct (terminated_ends g Hg) as [p ->]. rewrite strip_terminated.
    split; [by destruct (lstrip p) | apply last_snoc].
  - unfold _chunk_text. cbn [re_split fold_left]. unfold chunk_step.
    destruct (len [] + len [] <=? max_size); reflexivity.
Qed.

(** C4, at the input where it fails: with [max_size = 4] the text [ab。c],
    whose sentences [ab] and [c] are both shorter than 4 even with their
    terminators, comes back as the single chunk [ab。c。] of 5
    characters. *)
Theorem chunk_text_exceeds_max_size :
  re_split is_sentence_end two_sentences = [[0x61; 0x62]; [0x63]]%N
  ∧ _chunk_text two_sentences 4 = [[0x61; 0x62; 0x3002; 0x63; 0x3002]]%N
  ∧ Exists (λ chunk, 4 < len chunk) (_chunk_text two_sentences 4)
  ∧ Forall (λ s, len (s ++ [MARU]) < 4) (re_split is_sentence_end two_sentences).
Proof.
  split; [reflexivity|]. split; [reflexivity|]. split.
  - apply Exists_cons_hd. reflexivity.
  - repeat constructor.
Qed.

(** C5 as stated fails: the indented second sentence of [あ\n　い] comes
    back without its leading space. *)
Lemma chunk_text_drops_leading_space :
  reconstruct (_chunk_text indented_text 1) = [[0x3042]; [0x3044]]%N
  ∧ re_split is_sentence_end indented_text = [[0x3042]; [0x3000; 0x3044]]%N
  ∧ reconstruct (_chunk_text indented_text 1)
    ≠ re_split is_sentence_end indented_text.
Proof.
  split; [reflexivity|]. split; [reflexivity|].
  intros H. vm_compute in H. discriminate H.
Qed.

(** C5, amended. Removing the inserted terminators from the concatenated
    chunks gives back the sentences of the text, in order and one for one,
    each either unchanged or with its leading whitespace removed (the
    chunker strips every chunk, so the first sentence of a chunk loses
    it). *)
Theorem chunk_text_reconstructs_sentences (text : str) (max_size : Z) :
  Forall2 (λ sentence piece, piece = sentence ∨ piece = lstrip sentence)
          (re_split is_sentence_end text)
          (reconstruct (_chunk_text text max_size)).
Proof.
  destruct (chunk_text_groups text max_size) as (groups & -> & Hc & Hne & _).
  rewrite reconstruct_chunks_of; [| done | rewrite Hc; apply re_split_no_sep].
  rewrite <- Hc. clear Hc Hne.
  induction groups as [|g groups IH]; simpl; [constructor|].
  apply Forall2_app; [apply strip_head_related | exact IH].
Qed.

(** When no sentence starts with whitespace the reconstruction is exact. *)
Lemma chunk_text_lossless (text : str) (max_size : Z) :
  Forall (λ s, lstrip s = s) (re_split is_sentence_end text) →
  reconstruct (_chunk_text text max_size) = re_split is_sentence_end text.
Proof.
  intros Hs.
  destruct (chunk_text_groups text max_size) as (groups & -> & Hc & Hne & _).
  rewrite reconstruct_chunks_of; [| done | rewrite Hc; apply re_split_no_sep].
  rewrite <- Hc in *. clear Hc Hne.
  induction groups as [|g groups IH]; [done|].
  rewrite fmap_cons, !concat_cons in *.
  apply Forall_app in Hs as [Hg Hs].
  rewrite IH by done. f_equal.
  destruct g as [|s rest]; [done|]. simpl. inversion Hg; subst. congruence.
Qed.

(** ** Deduplication *)

Section Dedup.

Context {A : Type} (key : A → str).

Lemma dedup_fold (l : list A) : ∀ seen unique,
  (fold_left (dedup_step key) l (seen, unique)).2
  = unique ++ dedup_from key seen l.
Proof.
  induction l as [|x l IH]; intros seen unique; simpl.
  - by rewrite app_nil_r.
  - destruct (decide (key x ∈ seen)); rewrite IH; [done|].
    by rewrite <- app_assoc.
Qed.

Lemma dedup_by_from (l : list A) : dedup_by key l = dedup_from key ∅ l.
Proof. unfold dedup_by. by rewrite dedup_fold. Qed.

Lemma dedup_from_sublist (l : list A) : ∀ seen, sublist (dedup_from key seen l) l.
Proof.
  induction l as [|x l IH]; intros seen; simpl; [constructor|].
  destruct (decide (key x ∈ seen)).
  - apply sublist_cons, IH.
  - apply sublist_skip, IH.
Qed.

Lemma dedup_from_keys (l : list A) : ∀ seen x,
  x ∈ dedup_from key seen l → key x ∉ seen.
Proof.
  induction l as [|y l IH]; intros seen x; simpl.
  - by intros ?%elem_of_nil.
  - destruct (decide (key y ∈ seen)); [by apply IH|].
    intros [->|Hx]%elem_of_cons; [done|].
    apply IH in Hx. set_solver.
Qed.

Lemma dedup_from_NoDup (l : list A) : ∀ seen,
  NoDup (key <$> dedup_from key seen l).
Proof.
  induction l as [|x l IH]; intros seen; simpl; [constructor|].
  destruct (decide (key x ∈ seen)); [apply IH|].
  rewrite fmap_cons. constructor; [|apply IH].
  intros (y & Hk & Hy)%list_elem_of_fmap.
  apply dedup_from_keys in Hy. set_solver.
Qed.

Lemma dedup_from_fixed (l : list A) : ∀ seen,
  NoDup (key <$> l) → Forall (λ x, key x ∉ seen) l →
  dedup_from key seen l = l.
Proof.
  induction l as [|x l IH]; intros seen Hnd Hs; simpl; [done|].
  rewrite fmap_cons in Hnd. apply NoDup_cons in Hnd as [Hx Hnd].
  apply Forall_cons in Hs as [Hxs Hs].
  rewrite decide_False by done. f_equal. apply IH; [done|].
  apply Forall_forall. intros y Hy.
  assert (key y ≠ key x).
  { intros Heq. apply Hx. rewrite <- Heq. by apply list_elem_of_fmap_2. }
  assert (key y ∉ seen) by (eapply Forall_forall in Hs; eauto).
  by apply not_elem_of_union; split; [apply not_elem_of_singleton|].
Qed.

Lemma dedup_from_first (l1 : list A) : ∀ seen x l2,
  key x ∉ seen → Forall (λ y, key y ≠ key x) l1 →
  x ∈ dedup_from key seen (l1 ++ x :: l2).
Proof.
  induction l1 as [|y l1 IH]; intros seen x l2 Hx Hl1; simpl.
  - rewrite decide_False by done. by left.
  - apply Forall_cons in Hl1 as [Hy Hl1].
    destruct (decide (key y ∈ seen)); [by apply IH|].
    right. apply IH; [|done].
    apply not_elem_of_union; split; [apply not_elem_of_singleton; congruence | done].
Qed.

Lemma dedup_by_spec : dedup_spec key (dedup_by key).
Proof.
  intros l. rewrite !dedup_by_from. repeat split.
  - apply dedup_from_fixed; [apply dedup_from_NoDup|].
    apply Forall_forall. intros x _. set_solver.
  - apply dedup_from_sublist.
  - apply dedup_from_NoDup.
  - intros l1 x l2 -> Hl1. apply dedup_from_first; [set_solver | done].
Qed.

(** Two records of one key never both survive, whichever comes first. *)
Lemma dedup_by_collide (l : list A) (x y : A) :
  x ∈ dedup_by key l → y ∈ dedup_by key l → key x = key y → x = y.
Proof.
  intros Hx Hy Hk. destruct (dedup_by_spec l) as (_ & _ & Hnd & _).
  apply list_elem_of_lookup in Hx as [i Hi]. apply list_elem_of_lookup in Hy as [j Hj].
  assert (i = j) as ->; [|congruence].
  eapply NoDup_lookup; [exact Hnd | |]; rewrite list_lookup_fmap.
  - by rewrite Hi.
  - rewrite Hj. simpl. by rewrite Hk.
Qed.

End Dedup.

(** C7. Deduplication of characters and of relationships is idempotent,
    keeps the records in the order of the input, leaves one record of each
    colliding group (the records of one key), and that record is the
    group's first occurrence. *)
Theorem dedup_idempotent_first_seen (str_lower : str → str) :
  dedup_spec (normalized_name str_lower) (_deduplicate_characters str_lower)
  ∧ dedup_spec rel_key _deduplicate_relationships.
Proof. split; apply dedup_by_spec. Qed.

(** The names [太郎], [太郎 ] and [　太郎] have one normalized form, whatever
    the lowercasing does. *)
Lemma normalized_name_spaces (str_lower : str → str) (c1 c2 c3 : Character) :
  name c1 = [0x592A; 0x90CE]%N → name c2 = [0x592A; 0x90CE; 0x20]%N →
  name c3 = [0x3000; 0x592A; 0x90CE]%N →
  _deduplicate_characters str_lower [c1; c2; c3] = [c1].
Proof.
  intros H1 H2 H3. unfold _deduplicate_characters. rewrite dedup_by_from. simpl.
  assert (normalized_name str_lower c2 = normalized_name str_lower c1) as E2.
  { unfold normalized_name. by rewrite H1, H2. }
  assert (normalized_name str_lower c3 = normalized_name str_lower c1) as E3.
  { unfold normalized_name. by rewrite H1, H3. }
  rewrite decide_False by set_solver.
  rewrite decide_True by set_solver.
  rewrite decide_True by set_solver. done.
Qed.

(** C8, at the input where it fails: the relationships [a_b]-[c] and
    [a]-[b_c] differ in both names, yet both have the key [a_b_c_friend],
    and the second is dropped as a duplicate of the first. *)
Theorem dedup_relationships_key_collision :
  rel_triple rel_ab_c ≠ rel_triple rel_a_bc
  ∧ rel_key rel_ab_c = rel_key rel_a_bc
  ∧ _deduplicate_relationships [rel_ab_c; rel_a_bc] = [rel_ab_c].
Proof.
  split; [discriminate|]. split; [reflexivity|].
  unfold _deduplicate_relationships. rewrite dedup_by_from. simpl.
  rewrite decide_False by set_solver.
  rewrite decide_True by (apply elem_of_union_l, elem_of_singleton; reflexivity).
  done.
Qed.

(** Relationships of one triple have one key: they always collide. *)
Lemma rel_triple_key (r1 r2 : Relationship) :
  rel_triple r1 = rel_triple r2 → rel_key r1 = rel_key r2.
Proof.
  unfold rel_triple, rel_key. intros H. injection H as E1 E2 E3.
  by rewrite E1, E2, E3.
Qed.

Lemma app_sep_inj (c : N) (a a' b b' : str) :
  c ∉ a → c ∉ a' → a ++ c :: b = a' ++ c :: b' → a = a' ∧ b = b'.
Proof.
  revert a'. induction a as [|x a IH]; intros [|x' a'] Ha Ha' H; simpl in H.
  - injection H as E. by rewrite E.
  - injection H as E _. exfalso. apply Ha'. rewrite E. by left.
  - injection H as E _. exfalso. apply Ha. rewrite <- E. by left.
  - injection H as E H. rewrite E. apply IH in H as [-> ->]; [done | |].
    + intros ?. apply Ha. by right.
    + intros ?. apply Ha'. by right.
Qed.

(** When no name contains an underscore, the keys collide only for equal
    triples. *)
Lemma rel_key_triple (r1 r2 : Relationship) :
  Forall (λ p, 0x5F%N ∉ p) [person1 r1; person2 r1; person1 r2; person2 r2] →
  rel_key r1 = rel_key r2 → rel_triple r1 = rel_triple r2.
Proof.
  intros H. apply Forall_cons in H as [H1 H]. apply Forall_cons in H as [H2 H].
  apply Forall_cons in H as [H3 H]. apply Forall_cons in H as [H4 _].
  unfold rel_key, rel_triple. change (lit "_") with [0x5F%N]. simpl.
  intros [-> [-> ->]%app_sep_inj]%app_sep_inj; done.
Qed.

(** ** Record construction *)

(** C9 as stated fails: a response item without attributes gives a
    character whose age, occupation, appearance and personality are null,
    and an emotion whose target is null. *)
Lemma optional_fields_are_null :
  age (make_character bare_extraction) = None
  ∧ occupation (make_character bare_extraction) = None
  ∧ appearance (make_character bare_extraction) = None
  ∧ personality (make_character bare_extraction) = None
  ∧ target (make_emotion bare_extraction) = None.
Proof. repeat split. Qed.

(** C9, amended. When the response gives no value, every field declared
    [str] takes an explicit default ([不明]; [普通] for the intensity;
    [一方向] for the direction; the empty string for the quote and the
    evidence, which otherwise are the extracted span), and the fields
    declared [Optional[str]] (age, occupation, appearance, personality,
    target) are null exactly when the attribute is absent. *)
Theorem record_fields_default (extraction : Extraction) :
  let attrs := attributes extraction in
  let no_span := extraction_text extraction = [] in
  let c := make_character extraction in
  let e := make_emotion extraction in
  let r := make_relationship extraction in
  ((no_span → attrs !! lit "name" = None → name c = FUMEI)
   ∧ (attrs !! lit "gender" = None → gender c = FUMEI))
  ∧ ((attrs !! lit "emotion_type" = None → emotion_type e = FUMEI)
     ∧ (attrs !! lit "subject" = None → subject e = FUMEI)
     ∧ (attrs !! lit "intensity" = None → intensity e = FUTSUU)
     ∧ (no_span → attrs !! lit "quote" = None → quote e = []))
  ∧ ((attrs !! lit "person1" = None → person1 r = FUMEI)
     ∧ (attrs !! lit "person2" = None → person2 r = FUMEI)
     ∧ (attrs !! lit "relation_type" = None → relation_type r = FUMEI)
     ∧ (attrs !! lit "direction" = None → direction r = IPPOUKOU)
     ∧ (no_span → attrs !! lit "evidence" = None → evidence r = []))
  ∧ ((age c = None ↔ attrs !! lit "age" = None)
     ∧ (occupation c = None ↔ attrs !! lit "occupation" = None)
     ∧ (appearance c = None ↔ attrs !! lit "appearance" = None)
     ∧ (personality c = None ↔ attrs !! lit "personality" = None)
     ∧ (target e = None ↔ attrs !! lit "target" = None)).
Proof.
  destruct extraction as [span attrs].
  unfold make_character, make_emotion, make_relationship, dict_get_or,
    dict_get, str_or.
  cbn [attributes extraction_text name gender age occupation appearance
       personality emotion_type subject target intensity quote person1
       person2 relation_type direction evidence].
  repeat split; try done;
    try (intros ->; simpl; intros ->; reflexivity);
    try (intros ->; reflexivity).
Qed.

(** ** Runs of the safe extraction operations *)

Section Runs.

Context {ClientState : Type}.
Context (lx_extract : Request → ClientState → Response * ClientState).

Implicit Types (w : World ClientState) (k : Kind) (text chunk : str).

Lemma bind_run {A B} (m : M ClientState A) (f : A → M ClientState B) w :
  bind m f w = match m w with
               | None => None
               | Some (Ok a, w1) => f a w1
               | Some (Raise e, w1) => Some (Raise e, w1)
               end.
Proof. reflexivity. Qed.

Lemma log_record ev c w : log (record ev c w) = log w ++ [ev].
Proof. reflexivity. Qed.

Lemma retry_step_run {R} (run : str → M ClientState (list R)) chunk all w :
  retry_step run chunk all w
  = match run chunk w with
    | None => None
    | Some (r, w1) => Some (Ok (all ++ contribution r), w1)
    end.
Proof.
  unfold retry_step, try_except, bind, ret.
  destruct (run chunk w) as [[[items|e] w1]|]; simpl; by rewrite ?app_nil_r.
Qed.

(** The retry loop returns exactly when every sub-run returns, and then
    with the contributions concatenated; it never raises. *)
Lemma retry_loop_spec {R} (run : str → M ClientState (list R)) chunks :
  ∀ acc w res w',
    for_each (retry_step run) chunks acc w = Some (res, w')
    ↔ ∃ items, res = Ok (acc ++ items) ∧ sub_runs run chunks w items w'.
Proof.
  induction chunks as [|chunk rest IH]; intros acc w res w'.
  - simpl. unfold ret. split.
    + intros H. injection H as <- <-. exists []. rewrite app_nil_r.
      split; [done | constructor].
    + intros (items & -> & Hs). inversion Hs; subst. by rewrite app_nil_r.
  - cbn [for_each]. rewrite bind_run, retry_step_run.
    destruct (run chunk w) as [[r w1]|] eqn:Hrun.
    + rewrite IH. split.
      * intros (items & -> & Hs). exists (contribution r ++ items).
        rewrite app_assoc. split; [done|]. by econstructor.
      * intros (items & -> & Hs). inversion Hs; subst.
        match goal with H : run chunk w = Some _ |- _ =>
          rewrite Hrun in H; injection H as <- <- end.
        eexists. split; [by rewrite app_assoc | done].
    + split; [discriminate|]. intros (items & _ & Hs).
      inversion Hs; subst. congruence.
Qed.

Lemma retry_chunks_spec {R} (run : str → M ClientState (list R)) chunks w res w' :
  retry_chunks run chunks w = Some (res, w')
  ↔ ∃ items, res = Ok items ∧ sub_runs run chunks w items w'.
Proof. unfold retry_chunks. by rewrite retry_loop_spec. Qed.

Lemma safe_extract_unfold k fuel text w :
  safe_extract lx_extract k (S fuel) text w
  = let request := plain_request text k in
    match lx_extract request (client w) with
    | (Extractions l, c) =>
        Some (Ok (make_record k <$> l), record (Call request) c w)
    | (Raises (JSONDecodeError _), c) =>
        if len text >? 1000
        then retry_chunks (safe_extract lx_extract k fuel)
                          (take 3 (_chunk_text text 1000))
                          (record (Call request) c w)
        else Some (Ok [], record (Call request) c w)
    | (Raises (OtherError _), c) => Some (Ok [], record (Call request) c w)
    end.
Proof.
  cbn [safe_extract]. unfold try_except, bind, lx_call. cbn zeta.
  destruct (lx_extract (plain_request text k) (client w)) as [[l|[m|m]] c];
    try reflexivity.
  by destruct (len text >? 1000).
Qed.

(** The safe extraction operations never raise: every exception of the
    client ends in their handlers. *)
Lemma safe_extract_never_raises k fuel text w r w' :
  safe_extract lx_extract k fuel text w = Some (r, w') → ∃ items, r = Ok items.
Proof.
  destruct fuel as [|fuel]; [discriminate|].
  rewrite safe_extract_unfold. cbn zeta.
  destruct (lx_extract (plain_request text k) (client w)) as [[l|[m|m]] c].
  - intros H. injection H as <- _. eauto.
  - destruct (len text >? 1000).
    + intros (items & -> & _)%retry_chunks_spec. eauto.
    + intros H. injection H as <- _. eauto.
  - intros H. injection H as <- _. eauto.
Qed.

Lemma extract_kinds_never_raises fuel text w r w' :
  extract_kinds lx_extract fuel text w = Some (r, w') → ∃ results, r = Ok results.
Proof.
  unfold extract_kinds, _safe_extract_characters, _safe_extract_emotions,
    _safe_extract_relationships.
  rewrite bind_run.
  destruct (safe_extract lx_extract character fuel text w) as [[r1 w1]|] eqn:H1;
    [|discriminate].
  destruct (safe_extract_never_raises _ _ _ _ _ _ H1) as [cs ->].
  rewrite bind_run.
  destruct (safe_extract lx_extract emotion fuel text w1) as [[r2 w2]|] eqn:H2;
    [|discriminate].
  destruct (safe_extract_never_raises _ _ _ _ _ _ H2) as [es ->].
  rewrite bind_run.
  destruct (safe_extract lx_extract relationship fuel text w2) as [[r3 w3]|] eqn:H3;
    [|discriminate].
  destruct (safe_extract_never_raises _ _ _ _ _ _ H3) as [rs ->].
  unfold ret. intros H. injection H as <- _. eauto.
Qed.

(** The exception handler of the chunk loop, with its cooldown and its
    retry, is never entered: a chunk is processed by the [try] body alone,
    whatever the client does. *)
Lemma process_chunk_handler_unreachable fuel n i chunk acc w :
  process_chunk lx_extract fuel n i chunk acc w
  = bind (extract_kinds lx_extract fuel chunk) (λ chunk_results,
    bind (if (i <? n)%nat then sleep 2 else ret tt) (λ _,
    ret (extend_all acc chunk_results))) w.
Proof.
  unfold process_chunk, try_except. rewrite bind_run.
  destruct (extract_kinds lx_extract fuel chunk w) as [[r w1]|] eqn:Hk; [|done].
  destruct (extract_kinds_never_raises _ _ _ _ _ Hk) as [results ->].
  rewrite bind_run. by destruct (i <? n)%nat.
Qed.

(** More fuel never changes a run that returned. *)
Lemma sub_runs_mono {R} (run run' : str → M ClientState (list R)) chunks w items w' :
  (∀ chunk w0 r, run chunk w0 = Some r → run' chunk w0 = Some r) →
  sub_runs run chunks w items w' → sub_runs run' chunks w items w'.
Proof.
  intros Hmono Hs. induction Hs as [|chunk rest w r w1 items w2 Hrun _ IH].
  - constructor.
  - econstructor; [apply Hmono, Hrun | exact IH].
Qed.

Lemma safe_extract_fuel_step k fuel : ∀ text w r,
  safe_extract lx_extract k fuel text w = Some r →
  safe_extract lx_extract k (S fuel) text w = Some r.
Proof.
  induction fuel as [|fuel IH]; intros text w [res w']; [discriminate|].
  rewrite !safe_extract_unfold. cbn zeta.
  destruct (lx_extract (plain_request text k) (client w)) as [[l|[m|m]] c];
    try done.
  destruct (len text >? 1000); [|done].
  rewrite !retry_chunks_spec. intros (items & -> & Hs).
  exists items. split; [done|].
  eapply sub_runs_mono; [|exact Hs]. intros chunk w0 r. apply IH.
Qed.

Lemma safe_extract_fuel_mono k fuel fuel' text w r :
  (fuel ≤ fuel')%nat →
  safe_extract lx_extract k fuel text w = Some r →
  safe_extract lx_extract k fuel' text w = Some r.
Proof.
  intros Hle Hrun. induction Hle as [|fuel' _ IH]; [done|].
  by apply safe_extract_fuel_step.
Qed.

(** A text that is not narrowed costs one call. *)
Lemma safe_extract_single_call k fuel text w :
  len text ≤ 1000 ∨ never_malformed lx_extract text →
  ∃ items c,
    safe_extract lx_extract k (S fuel) text w
    = Some (Ok items, record (Call (plain_request text k)) c w).
Proof.
  intros Hcase. rewrite safe_extract_unfold. cbn zeta.
  destruct (lx_extract (plain_request text k) (client w)) as [[l|[m|m]] c] eqn:Hc;
    [by eauto | | by eauto].
  destruct Hcase as [Hle|Hnm].
  - assert ((len text >? 1000) = false) as -> by lia. eauto.
  - by apply Hnm in Hc.
Qed.

Lemma sub_runs_single_calls k fuel chunks : ∀ w,
  Forall (λ chunk, len chunk ≤ 1000) chunks →
  ∃ items w',
    sub_runs (safe_extract lx_extract k (S fuel)) chunks w items w'
    ∧ log w' = log w ++ ((λ chunk, Call (plain_request chunk k)) <$> chunks).
Proof.
  induction chunks as [|chunk rest IH]; intros w Hle.
  - exists [], w. split; [constructor | by rewrite app_nil_r].
  - apply Forall_cons in Hle as [Hc Hle].
    destruct (safe_extract_single_call k fuel chunk w (or_introl Hc))
      as (items & c & Hrun).
    destruct (IH (record (Call (plain_request chunk k)) c w) Hle)
      as (items' & w' & Hs & Hlog).
    exists (contribution (Ok items) ++ items'), w'.
    split; [by econstructor|].
    rewrite Hlog, log_record, fmap_cons, <- app_assoc. done.
Qed.

(** C2, amended. When the client answers a text with a malformed
    response: a text of at most 1000 characters gives the empty list with
    no further call; a longer text is re-chunked at 1000 characters and
    the safe extraction operation itself is run again on at most the
    first 3 sub-chunks, in order, the result being the concatenation of
    what those runs return (it returns exactly when they all do). When the
    sub-chunks are within 1000 characters each costs exactly one further
    call and the operation returns. A text on which the client fails
    contributes nothing if it is within 1000 characters or the error is
    not a malformed response. *)
Theorem malformed_response_narrowing k fuel text w msg c :
  lx_extract (plain_request text k) (client w)
    = (Raises (JSONDecodeError msg), c) →
  let w1 := record (Call (plain_request text k)) c w in
  let sub_chunks := take 3 (_chunk_text text 1000) in
  (len text ≤ 1000 →
     safe_extract lx_extract k (S fuel) text w = Some (Ok [], w1))
  ∧ (1000 < len text →
       (length sub_chunks ≤ 3)%nat
       ∧ (∀ res w',
            safe_extract lx_extract k (S fuel) text w = Some (res, w')
            ↔ ∃ items,
                res = Ok items
                ∧ sub_runs (safe_extract lx_extract k fuel) sub_chunks w1
                           items w')
       ∧ (Forall (λ chunk, len chunk ≤ 1000) sub_chunks →
            ∃ items w',
              safe_extract lx_extract k (S (S fuel)) text w
                = Some (Ok items, w')
              ∧ log w'
                = log w1
                  ++ ((λ chunk, Call (plain_request chunk k)) <$> sub_chunks)))
  ∧ (∀ chunk w2 e c2,
       lx_extract (plain_request chunk k) (client w2) = (Raises e, c2) →
       len chunk ≤ 1000 ∨ (∃ m, e = OtherError m) →
       safe_extract lx_extract k (S fuel) chunk w2
         = Some (Ok [], record (Call (plain_request chunk k)) c2 w2)).
Proof.
  intros Hc w1 sub_chunks. split; [|split].
  - intros Hle. rewrite safe_extract_unfold. cbn zeta. rewrite Hc.
    by assert ((len text >? 1000) = false) as -> by lia.
  - intros Hgt.
    assert (∀ n, safe_extract lx_extract k (S n) text w
                 = retry_chunks (safe_extract lx_extract k n) sub_chunks w1)
      as Hstep.
    { intros n. rewrite safe_extract_unfold. cbn zeta. rewrite Hc.
      by assert ((len text >? 1000) = true) as -> by lia. }
    split; [|split].
    + subst sub_chunks. rewrite length_take. lia.
    + intros res w'. rewrite Hstep. apply retry_chunks_spec.
    + intros Hsub.
      destruct (sub_runs_single_calls k fuel sub_chunks w1 Hsub)
        as (items & w' & Hs & Hlog).
      exists items, w'. split; [|done].
      rewrite Hstep. apply retry_chunks_spec. eauto.
  - intros chunk w2 e c2 Hc2 Hcase. rewrite safe_extract_unfold. cbn zeta.
    rewrite Hc2. destruct Hcase as [Hle|[m ->]]; [|done].
    destruct e as [m|m]; [|done].
    by assert ((len chunk >? 1000) = false) as -> by lia.
Qed.

(** ** Routing in [extract_all] *)

Lemma scaling_run text k passes workers buffer w :
  _extract_with_scaling lx_extract text k passes workers buffer w
  = let request := scaling_request text k passes workers buffer in
    match lx_extract request (client w) with
    | (Extractions l, c) =>
        Some (Ok (make_record k <$> l), record (Call request) c w)
    | (Raises e, c) => Some (Raise e, record (Call request) c w)
    end.
Proof.
  unfold _extract_with_scaling, try_except, bind, lx_call. cbn zeta.
  by destruct (lx_extract _ (client w)) as [[l|e] c].
Qed.

Lemma is_scaling_call_request text k passes workers buffer :
  is_scaling_call text (Call (scaling_request text k passes workers buffer)).
Proof. unfold is_scaling_call, scaling_request. eauto. Qed.

(** The scaling attempt always returns; it calls the client in scaling
    mode only, the character prompt first, and gives no results exactly
    when one of these calls raised. *)
Lemma scaled_attempt_run text passes workers buffer w :
  ∃ scaled w1 evs,
    scaled_attempt lx_extract text passes workers buffer w
      = Some (Ok scaled, w1)
    ∧ log w1
      = log w ++ Call (scaling_request text character passes workers buffer)
                 :: evs
    ∧ Forall (is_scaling_call text) evs
    ∧ match scaled with
      | Some _ => length evs = 2%nat
      | None => ∃ k st e c,
          lx_extract (scaling_request text k passes workers buffer) st
            = (Raises e, c)
      end.
Proof.
  unfold scaled_attempt, try_except. rewrite bind_run, scaling_run. cbn zeta.
  destruct (lx_extract (scaling_request text character passes workers buffer)
                       (client w)) as [[l1|e1] c1] eqn:H1.
  2:{ eexists None, _, []. split; [reflexivity|].
      repeat split; [constructor | eauto 6]. }
  rewrite bind_run, scaling_run. cbn [client record]. cbn zeta.
  destruct (lx_extract (scaling_request text emotion passes workers buffer) c1)
    as [[l2|e2] c2] eqn:H2.
  2:{ eexists None, _, [_]. split; [reflexivity|]. cbn [client record log].
      rewrite <- app_assoc. repeat split; [|eauto 6].
      repeat constructor. apply is_scaling_call_request. }
  rewrite bind_run, scaling_run. cbn [client record]. cbn zeta.
  destruct (lx_extract (scaling_request text relationship passes workers buffer)
                       c2) as [[l3|e3] c3] eqn:H3.
  2:{ eexists None, _, [_; _]. split; [reflexivity|]. cbn [client record log].
      rewrite <- !app_assoc. repeat split; [|eauto 6].
      repeat constructor; apply is_scaling_call_request. }
  eexists (Some _), _, [_; _]. split; [reflexivity|]. cbn [client record log].
  rewrite <- !app_assoc. repeat split.
  repeat constructor; apply is_scaling_call_request.
Qed.

Lemma extract_kinds_single_calls fuel text w :
  len text ≤ 1000 ∨ never_malformed lx_extract text →
  ∃ results w',
    extract_kinds lx_extract (S fuel) text w = Some (Ok results, w')
    ∧ log w' = log w ++ [Call (plain_request text character);
                         Call (plain_request text emotion);
                         Call (plain_request text relationship)].
Proof.
  intros Hcase.
  unfold extract_kinds, _safe_extract_characters, _safe_extract_emotions,
    _safe_extract_relationships.
  destruct (safe_extract_single_call character fuel text w Hcase)
    as (cs & c1 & E1).
  rewrite bind_run, E1.
  destruct (safe_extract_single_call emotion fuel text
              (record (Call (plain_request text character)) c1 w) Hcase)
    as (es & c2 & E2).
  rewrite bind_run, E2.
  destruct (safe_extract_single_call relationship fuel text
              (record (Call (plain_request text emotion)) c2
                 (record (Call (plain_request text character)) c1 w)) Hcase)
    as (rs & c3 & E3).
  rewrite bind_run, E3.
  eexists _, _. split; [reflexivity|].
  cbn [log record]. by rewrite <- !app_assoc.
Qed.


End Runs.

(** ** Runs on the example inputs *)

Lemma long_sentence_chunks : _chunk_text long_sentence 1000 = [long_chunk].
Proof. vm_compute. reflexivity. Qed.

Lemma long_chunk_chunks : _chunk_text long_chunk 1000 = [long_chunk; [MARU]].
Proof. vm_compute. reflexivity. Qed.

Lemma long_sentence_len : len long_sentence = 1001.
Proof. vm_compute. reflexivity. Qed.

Lemma long_chunk_len : len long_chunk = 1002.
Proof. vm_compute. reflexivity. Qed.

(** C3, at the input where it fails: a sentence of 1001 characters is its
    own chunk, one character longer with the terminator, and chunking that
    chunk gives the same chunk again, so a narrowing step does not shrink
    the text. With a client whose first five calls answer with a malformed
    response, the 1002-character chunk is attempted five times, in five
    nested narrowing steps, and the run makes ten client calls: what stops
    the retries is the client, not the size of the text. *)
Theorem narrowing_repeats_the_same_text :
  len long_sentence = 1001
  ∧ take 3 (_chunk_text long_sentence 1000) = [long_chunk]
  ∧ len long_chunk = 1002
  ∧ take 3 (_chunk_text long_chunk 1000) = [long_chunk; [MARU]]
  ∧ ∀ k, ∃ items w',
      safe_extract (fails_first 5 malformed_error) k 6 long_sentence
                   (fresh 0%nat)
        = Some (Ok items, w')
      ∧ length items = 5%nat
      ∧ log w' = [Call (plain_request long_sentence k);
                  Call (plain_request long_chunk k);
                  Call (plain_request long_chunk k);
                  Call (plain_request long_chunk k);
                  Call (plain_request long_chunk k);
                  Call (plain_request long_chunk k);
                  Call (plain_request [MARU] k);
                  Call (plain_request [MARU] k);
                  Call (plain_request [MARU] k);
                  Call (plain_request [MARU] k)].
Proof.
  split; [apply long_sentence_len|].
  split; [by rewrite long_sentence_chunks|].
  split; [apply long_chunk_len|].
  split; [by rewrite long_chunk_chunks|].
  intros k. destruct k; eexists _, _.
  all: split; [vm_compute; reflexivity|].
  all: split; vm_compute; reflexivity.
Qed.

(** The same without any long sentence: sentences of 499 and 500
    characters fill a chunk of 1001 characters, one more than the bound
    because the last terminator is not counted, and that chunk is its own
    first chunk. *)
Lemma narrowing_repeats_on_short_sentences :
  Forall (λ s, len s ≤ 500) (re_split is_sentence_end short_sentences)
  ∧ take 3 (_chunk_text short_sentences 1000)
    = [chunk_1001; repeat 0x63%N 10 ++ [MARU]]
  ∧ len chunk_1001 = 1001
  ∧ take 3 (_chunk_text chunk_1001 1000) = [chunk_1001; [MARU]].
Proof.
  split.
  { vm_compute. repeat (constructor; [discriminate|]). constructor. }
  split; [vm_compute; reflexivity|].
  split; vm_compute; reflexivity.
Qed.

(** C2 as stated fails: the client answers the first two calls with a
    malformed response. The only sub-chunk of the 1001-character sentence
    is retried, fails again, and is not dropped: it is narrowed again,
    and the result holds its record and the record of the chunk [。]. *)
Lemma failed_sub_chunk_is_narrowed_again :
  take 3 (_chunk_text long_sentence 1000) = [long_chunk]
  ∧ fails_first 2 malformed_error (plain_request long_chunk character) 1%nat
    = (Raises malformed_error, 2%nat)
  ∧ ∃ items w',
      safe_extract (fails_first 2 malformed_error) character 3 long_sentence
                   (fresh 0%nat)
        = Some (Ok items, w')
      ∧ name <$> (items : list Character) = [long_chunk; [MARU]]
      ∧ log w' = [Call (plain_request long_sentence character);
                  Call (plain_request long_chunk character);
                  Call (plain_request long_chunk character);
                  Call (plain_request [MARU] character)].
Proof.
  split; [by rewrite long_sentence_chunks|]. split; [reflexivity|].
  eexists _, _. split; [vm_compute; reflexivity|].
  split; vm_compute; reflexivity.
Qed.

Lemma two_long_sentences_chunks :
  _chunk_text two_long_sentences 1000 = [chunk_a600; chunk_b600].
Proof. vm_compute. reflexivity. Qed.

Lemma dedup_by_singleton {A} (key : A → str) (x : A) : dedup_by key [x] = [x].
Proof. rewrite dedup_by_from. simpl. by rewrite decide_False by set_solver. Qed.

Lemma two_chunks_chunks : _chunk_text two_chunks 3 = [chunk_ab; chunk_cd].
Proof. reflexivity. Qed.

(** C1, at the input where it fails: chunked mode (scaling off, a
    threshold of 3) on [ab。cd], with a client whose first call raises
    [429 RESOURCE_EXHAUSTED] and whose later calls all succeed. The error
    ends in the handler of the safe character extraction: there is no
    60-second wait and no second character call for the chunk [ab。], and
    the merged characters hold the second chunk's record only. *)
Theorem rate_limit_error_is_swallowed (str_lower : str → str) :
  _chunk_text two_chunks 3 = [chunk_ab; chunk_cd]
  ∧ is_rate_limit rate_limit_error = true
  ∧ ∃ results w',
      extract_all str_lower (fails_first 1 rate_limit_error) 1 two_chunks 3
                  false 2 10 1000 (fresh 0%nat)
        = Some (Ok results, w')
      ∧ name <$> characters results = [chunk_cd]
      ∧ quote <$> emotions results = [chunk_ab; chunk_cd]
      ∧ log w' = [Call (plain_request chunk_ab character);
                  Call (plain_request chunk_ab emotion);
                  Call (plain_request chunk_ab relationship);
                  Sleep 2;
                  Call (plain_request chunk_cd character);
                  Call (plain_request chunk_cd emotion);
                  Call (plain_request chunk_cd relationship)].
Proof.
  split; [reflexivity|]. split; [reflexivity|].
  unfold extract_all. cbn [andb]. rewrite bind_run. unfold ret at 1.
  change (len two_chunks >? 3) with true. cbv beta iota.
  unfold chunked. rewrite two_chunks_chunks, bind_run.
  pose (loop := chunk_loop (fails_first 1 rate_limit_error) 1
                  (length [chunk_ab; chunk_cd]) 1 [chunk_ab; chunk_cd]
                  no_results (fresh 0%nat)).
  fold loop.
  assert (∃ cs es rs w1, loop = Some (Ok (mkResults cs es rs), w1)
          ∧ (∃ c, cs = [c] ∧ name c = chunk_cd)
          ∧ quote <$> es = [chunk_ab; chunk_cd]
          ∧ log w1 = [Call (plain_request chunk_ab character);
                      Call (plain_request chunk_ab emotion);
                      Call (plain_request chunk_ab relationship);
                      Sleep 2;
                      Call (plain_request chunk_cd character);
                      Call (plain_request chunk_cd emotion);
                      Call (plain_request chunk_cd relationship)])
    as (cs & es & rs & w1 & -> & (c & -> & Hc) & Hes & Hlog).
  { subst loop. eexists _, _, _, _. split; [vm_compute; reflexivity|].
    split; [eexists; split; reflexivity|]. split; reflexivity. }
  unfold ret. eexists _, _. split; [reflexivity|].
  cbn [characters emotions]. unfold _deduplicate_characters.
  rewrite dedup_by_singleton. cbn [fmap list_fmap]. rewrite Hc. done.
Qed.


(** ** The theorems with hypotheses, at concrete inputs *)

(** C2 at concrete inputs: a 5-character text with a client that always
    answers with a malformed response, and the 1201-character text with a
    client that does so for texts over 1000 characters. *)
Lemma malformed_response_narrowing_witness :
  safe_extract always_malformed character 1 two_chunks (fresh tt)
    = Some (Ok [], record (Call (plain_request two_chunks character)) tt
                          (fresh tt))
  ∧ ∃ items w',
      safe_extract malformed_over_1000 character 2 two_long_sentences
                   (fresh tt)
        = Some (Ok items, w')
      ∧ log w' = [Call (plain_request two_long_sentences character);
                  Call (plain_request chunk_a600 character);
                  Call (plain_request chunk_b600 character)].
Proof.
  split.
  - destruct (malformed_response_narrowing always_malformed character 0
                two_chunks (fresh tt) (lit "Expecting value") tt eq_refl)
      as [H _].
    apply H. vm_compute. discriminate.
  - destruct (malformed_response_narrowing malformed_over_1000 character 0
                two_long_sentences (fresh tt) (lit "Expecting value") tt
                eq_refl)
      as (_ & H & _).
    destruct H as (_ & _ & H); [vm_compute; reflexivity|].
    destruct H as (items & w' & Hrun & Hlog).
    + rewrite two_long_sentences_chunks. cbn [take firstn].
      repeat (constructor; [vm_compute; discriminate|]). constructor.
    + exists items, w'. split; [exact Hrun|]. rewrite Hlog.
      vm_compute. reflexivity.
Defined.


(** C9 at a response item that has a span and no attributes. *)
Lemma record_fields_default_witness :
  gender (make_character bare_extraction) = FUMEI
  ∧ intensity (make_emotion bare_extraction) = FUTSUU
  ∧ direction (make_relationship bare_extraction) = IPPOUKOU
  ∧ age (make_character bare_extraction) = None.
Proof.
  destruct (record_fields_default bare_extraction)
    as ([_ Hg] & (_ & _ & Hi & _) & (_ & _ & _ & Hd & _) & ([_ Ha] & _)).
  split; [apply Hg; reflexivity|]. split; [apply Hi; reflexivity|].
  split; [apply Hd; reflexivity|]. apply Ha. reflexivity.
Defined.

(** * Further properties *)

(** ** The chunker *)

Lemma groups_length (groups : list (list str)) :
  Forall (λ g, g ≠ []) groups → (length groups ≤ length (concat groups))%nat.
Proof.
  induction 1 as [|g groups Hg _ IH]; simpl; [lia|].
  rewrite length_app. destruct g; [done|]. simpl. lia.
Qed.

(** X1. [_chunk_text] returns at least one chunk and at most one chunk per
    sentence of the text. *)
Theorem chunk_text_count (text : str) (max_size : Z) :
  (1 ≤ length (_chunk_text text max_size)
   ≤ length (re_split is_sentence_end text))%nat.
Proof.
  destruct (chunk_text_groups text max_size) as (groups & -> & Hc & Hne & _).
  unfold chunks_of. rewrite length_fmap. rewrite <- Hc. split.
  - destruct groups; [|simpl; lia].
    simpl in Hc. symmetry in Hc. by apply re_split_nonempty in Hc.
  - by apply groups_length.
Qed.

Lemma terminated_app g1 g2 : terminated (g1 ++ g2) = terminated g1 ++ terminated g2.
Proof. unfold terminated. apply flat_map_app. Qed.

(** The sentences with their terminators are the text with every sentence
    end replaced by [。], and one more [。]. *)
Lemma terminated_re_split (text : str) :
  terminated (re_split is_sentence_end text)
  = ((λ c, if is_sentence_end c then MARU else c) <$> text) ++ [MARU].
Proof.
  induction text as [|c text IH]; [reflexivity|].
  cbn [re_split fmap list_fmap]. destruct (is_sentence_end c) eqn:Hc.
  - rewrite terminated_cons, IH. reflexivity.
  - destruct (re_split is_sentence_end text) as [|s ss] eqn:Hs.
    + by apply re_split_nonempty in Hs.
    + rewrite terminated_cons in *. simpl. by rewrite <- IH.
Qed.

Lemma chunk_fold_fits max ss : ∀ chunks g,
  len (terminated (g ++ ss)) ≤ max + 1 →
  fold_left (chunk_step max) ss (chunks, terminated g)
  = (chunks, terminated (g ++ ss)).
Proof.
  induction ss as [|s ss IH]; intros chunks g Hfit.
  - by rewrite app_nil_r.
  - cbn [fold_left]. unfold chunk_step at 2.
    rewrite terminated_app, terminated_cons, !len_app in Hfit.
    change (len (MARU :: terminated ss)) with (len ([MARU] ++ terminated ss)) in Hfit.
    rewrite len_app in Hfit. change (len [MARU]) with 1 in Hfit.
    pose proof (len_nonneg (terminated ss)).
    assert ((len (terminated g) + len s <=? max) = true) as -> by lia.
    rewrite <- terminated_snoc.
    replace (g ++ s :: ss) with ((g ++ [s]) ++ ss) by by rewrite <- app_assoc.
    apply IH. rewrite <- app_assoc. simpl.
    rewrite terminated_app, terminated_cons, !len_app.
    change (len (MARU :: terminated ss)) with (len ([MARU] ++ terminated ss)).
    rewrite len_app. change (len [MARU]) with 1. lia.
Qed.

(** X2. A text of at most [max_size] characters is one chunk: the text
    with every sentence end ([。], [！], [？], line break) replaced by [。],
    one more [。] appended, and stripped. *)
Theorem chunk_text_short_text (text : str) (max_size : Z) :
  len text ≤ max_size →
  _chunk_text text max_size
  = [strip (((λ c, if is_sentence_end c then MARU else c) <$> text) ++ [MARU])].
Proof.
  intros Hlen. unfold _chunk_text.
  pose proof (chunk_fold_fits max_size (re_split is_sentence_end text) [] [])
    as Hfold.
  rewrite app_nil_l in Hfold. change (terminated []) with (@nil N) in Hfold.
  rewrite Hfold.
  - rewrite terminated_re_split.
    by destruct ((λ c, if is_sentence_end c then MARU else c) <$> text).
  - rewrite terminated_re_split, len_app. unfold len in *.
    rewrite length_fmap. simpl. lia.
Qed.

(** X2 at [ab。c] with a bound of 10. *)
Lemma chunk_text_short_text_witness :
  _chunk_text two_sentences 10 = [[0x61; 0x62; 0x3002; 0x63; 0x3002]%N].
Proof.
  rewrite (chunk_text_short_text two_sentences 10); [reflexivity|].
  vm_compute. discriminate.
Defined.

Lemma strip_idempotent_terminated (p : str) :
  strip (strip (p ++ [MARU])) = strip (p ++ [MARU]).
Proof.
  rewrite !strip_terminated. f_equal.
  induction p as [|c p IH]; [done|]. simpl.
  destruct (Py_UNICODE_ISSPACE c) eqn:Hc; [exact IH|]. simpl. by rewrite Hc.
Qed.

(** X4. Every chunk is stripped already, and holds no [！], [？] or line
    break: every sentence end of the text has become [。]. *)
Theorem chunk_text_alphabet (text : str) (max_size : Z) :
  Forall (λ chunk,
            strip chunk = chunk
            ∧ Forall (λ c, c = MARU ∨ is_sentence_end c = false) chunk)
         (_chunk_text text max_size).
Proof.
  destruct (chunk_text_groups text max_size) as (groups & -> & Hc & Hne & _).
  pose proof (re_split_no_sep is_sentence_end text) as Hs. rewrite <- Hc in Hs.
  unfold chunks_of. apply Forall_fmap. apply Forall_forall. intros g Hin. simpl.
  assert (g ≠ []) as Hg by (eapply Forall_forall in Hne; eauto).
  split.
  - destruct (terminated_ends g Hg) as [p ->]. apply strip_idempotent_terminated.
  - assert (Forall (λ c, c = MARU ∨ is_sentence_end c = false) (terminated g))
      as Hall.
    { unfold terminated. apply Forall_flat_map, Forall_forall. intros s Hsg.
      apply Forall_app. split; [|by repeat constructor; left].
      assert (s ∈ concat groups) as Hsin.
      { apply list_elem_of_In, in_concat. exists g.
        split; by apply list_elem_of_In. }
      eapply Forall_forall in Hs; [|exact Hsin].
      eapply Forall_impl; [exact Hs|]. by right. }
    destruct (terminated_ends g Hg) as [p Hp]. rewrite Hp in *.
    rewrite strip_terminated. apply Forall_app in Hall as [Hall1 Hall2].
    apply Forall_app. split; [by apply lstrip_Forall | done].
Qed.

(** ** Deduplication *)

Lemma dedup_from_covers {A} (key : A → str) (l : list A) : ∀ seen,
  Forall (λ x, key x ∈ seen ∨ ∃ y, y ∈ dedup_from key seen l ∧ key y = key x) l.
Proof.
  induction l as [|x l IH]; intros seen; [constructor|]. simpl.
  destruct (decide (key x ∈ seen)) as [Hin|Hout].
  - constructor; [by left | apply IH].
  - constructor.
    + right. exists x. split; [by left | done].
    + eapply Forall_impl; [apply (IH ({[key x]} ∪ seen))|].
      intros y [Hy|(z & Hz & Hk)].
      * apply elem_of_union in Hy as [Hy|Hy]; [|by left].
        apply elem_of_singleton in Hy. right. exists x. split; [by left | done].
      * right. exists z. split; [by right | done].
Qed.

Lemma dedup_by_covers {A} (key : A → str) (l : list A) :
  Forall (λ x, ∃ y, y ∈ dedup_by key l ∧ key y = key x) l.
Proof.
  rewrite dedup_by_from.
  eapply Forall_impl; [apply (dedup_from_covers key l ∅)|].
  intros x [Hx|Hx]; [by apply not_elem_of_empty in Hx | done].
Qed.

(** X5. Deduplication of characters loses no name: every character of the
    input has a survivor with the same normalized name; and two survivors
    never have names that are equal once the ASCII and ideographic spaces
    are removed. *)
Theorem dedup_characters_up_to_spaces (str_lower : str → str)
    (characters : list Character) :
  let unique := _deduplicate_characters str_lower characters in
  let unspaced c := remove_char 0x3000 (remove_char 0x20 (name c)) in
  Forall (λ c, ∃ c', c' ∈ unique
                     ∧ normalized_name str_lower c' = normalized_name str_lower c)
         characters
  ∧ ∀ c1 c2, c1 ∈ unique → c2 ∈ unique → unspaced c1 = unspaced c2 → c1 = c2.
Proof.
  split; [apply dedup_by_covers|].
  intros c1 c2 H1 H2 Heq. eapply dedup_by_collide; [exact H1 | exact H2 |].
  unfold normalized_name. by rewrite Heq.
Qed.

Lemma rel_key_of_triple (rel : Relationship) :
  rel_key rel
  = (λ t : str * str * str, t.1.1 ++ lit "_" ++ t.1.2 ++ lit "_" ++ t.2)
      (rel_triple rel).
Proof. reflexivity. Qed.

(** X6. After deduplication no two relationships have the same
    [(person1, person2, relation_type)], and every relationship of the
    input has a survivor with the same key. *)
Theorem dedup_relationships_distinct_triples (relationships : list Relationship) :
  let unique := _deduplicate_relationships relationships in
  NoDup (rel_triple <$> unique)
  ∧ Forall (λ r, ∃ r', r' ∈ unique ∧ rel_key r' = rel_key r) relationships.
Proof.
  split; [|apply dedup_by_covers].
  destruct (dedup_by_spec rel_key relationships) as (_ & _ & Hnd & _).
  eapply (NoDup_fmap_1
            (λ t : str * str * str, t.1.1 ++ lit "_" ++ t.1.2 ++ lit "_" ++ t.2)).
  rewrite <- list_fmap_compose. exact Hnd.
Qed.

(** X7. When no name of the input contains an underscore, relationships
    are deduplicated exactly by their triple: every relationship of the
    input has a survivor with the same [(person1, person2,
    relation_type)]. *)
Theorem dedup_relationships_by_triple (relationships : list Relationship) :
  Forall (λ r, (0x5F%N ∉ person1 r) ∧ (0x5F%N ∉ person2 r)) relationships →
  Forall (λ r, ∃ r', r' ∈ _deduplicate_relationships relationships
                     ∧ rel_triple r' = rel_triple r)
         relationships.
Proof.
  intros Hnames.
  pose proof (dedup_by_covers rel_key relationships) as Hcov.
  destruct (dedup_by_spec rel_key relationships) as (_ & Hsub & _ & _).
  apply Forall_forall. intros r Hr.
  eapply Forall_forall in Hcov as (r' & Hr' & Hk); [|exact Hr].
  exists r'. split; [exact Hr'|].
  assert (r' ∈ relationships) as Hin by (eapply elem_of_sublist; eauto).
  apply rel_key_triple; [|exact Hk].
  destruct (proj1 (Forall_forall _ _) Hnames r Hr) as [? ?].
  destruct (proj1 (Forall_forall _ _) Hnames r' Hin) as [? ?].
  by repeat constructor.
Qed.

(** X7 at one relationship found twice. *)
Lemma dedup_relationships_by_triple_witness :
  Forall (λ r, ∃ r', r' ∈ _deduplicate_relationships
                            [rel_friends; rel_friends_again]
                     ∧ rel_triple r' = rel_triple r)
         [rel_friends; rel_friends_again].
Proof.
  apply dedup_relationships_by_triple.
  repeat constructor; vm_compute; intros H;
    repeat (apply elem_of_cons in H as [H|H]; [discriminate H|]);
    by apply elem_of_nil in H.
Defined.

(** ** The orchestrator *)

Section MoreRuns.

Context {ClientState : Type}.
Context (lx_extract : Request → ClientState → Response * ClientState).
Context (str_lower : str → str).

Implicit Types (w : World ClientState) (k : Kind) (text chunk : str).

(** X8. The plain extraction operations always return, never raise and
    cost exactly one client call; and on a text that is not narrowed (at
    most 1000 characters, or never answered with a malformed response)
    the safe operation is the plain one. *)
Theorem extract_records_single_call k text w :
  (∃ items c,
     extract_records lx_extract k text w
     = Some (Ok items, record (Call (plain_request text k)) c w))
  ∧ (len text ≤ 1000 ∨ never_malformed lx_extract text →
     ∀ fuel, safe_extract lx_extract k (S fuel) text w
             = extract_records lx_extract k text w).
Proof.
  unfold extract_records, try_except, bind, lx_call, ret. split.
  - destruct (lx_extract (plain_request text k) (client w)) as [[l|e] c]; eauto.
  - intros Hcase fuel. rewrite safe_extract_unfold. cbn zeta.
    destruct (lx_extract (plain_request text k) (client w)) as [[l|[m|m]] c] eqn:Hc;
      try reflexivity.
    destruct Hcase as [Hle|Hnm].
    + by assert ((len text >? 1000) = false) as -> by lia.
    + by apply Hnm in Hc.
Qed.

(** *** What a run logs *)

Lemma sub_runs_log {R} (P : Event → Prop)
    (run : str → M ClientState (list R)) chunks w items w' :
  (∀ chunk w0 r w1, run chunk w0 = Some (r, w1) →
                    ∃ evs, log w1 = log w0 ++ evs ∧ Forall P evs) →
  sub_runs run chunks w items w' →
  ∃ evs, log w' = log w ++ evs ∧ Forall P evs.
Proof.
  intros Hrun Hs. induction Hs as [w|chunk rest w r w1 items w2 H1 _ IH].
  - exists []. by rewrite app_nil_r.
  - destruct (Hrun _ _ _ _ H1) as (evs1 & E1 & P1).
    destruct IH as (evs2 & E2 & P2).
    exists (evs1 ++ evs2). rewrite E2, E1, <- app_assoc.
    split; [done | by apply Forall_app].
Qed.

Lemma plain_call_request text k : plain_call (Call (plain_request text k)).
Proof. unfold plain_call. eauto. Qed.

Lemma safe_extract_log k fuel : ∀ text w r w',
  safe_extract lx_extract k fuel text w = Some (r, w') →
  ∃ evs, log w' = log w ++ evs ∧ Forall plain_call evs.
Proof.
  induction fuel as [|fuel IH]; intros text w r w'; [discriminate|].
  rewrite safe_extract_unfold. cbn zeta.
  assert (∃ evs, log (record (Call (plain_request text k))
                             (lx_extract (plain_request text k) (client w)).2 w)
                 = log w ++ evs ∧ Forall plain_call evs) as Hone.
  { exists [Call (plain_request text k)]. split; [done|].
    repeat constructor. apply plain_call_request. }
  destruct (lx_extract (plain_request text k) (client w)) as [[l|[m|m]] c];
    cbn [snd] in Hone.
  - intros H. by injection H as _ <-.
  - destruct (len text >? 1000).
    + intros (items & _ & Hs)%retry_chunks_spec.
      destruct (sub_runs_log plain_call _ _ _ _ _ IH Hs) as (evs & E & HP).
      destruct Hone as (evs1 & E1 & HP1).
      exists (evs1 ++ evs). rewrite E, E1, <- app_assoc.
      split; [done | by apply Forall_app].
    + intros H. by injection H as _ <-.
  - intros H. by injection H as _ <-.
Qed.

Lemma extract_kinds_log fuel text w r w' :
  extract_kinds lx_extract fuel text w = Some (r, w') →
  ∃ evs, log w' = log w ++ evs ∧ Forall plain_call evs.
Proof.
  unfold extract_kinds, _safe_extract_characters, _safe_extract_emotions,
    _safe_extract_relationships.
  rewrite bind_run.
  destruct (safe_extract lx_extract character fuel text w) as [[r1 w1]|] eqn:H1;
    [|discriminate].
  destruct (safe_extract_never_raises _ _ _ _ _ _ _ H1) as [cs ->].
  destruct (safe_extract_log _ _ _ _ _ _ H1) as (evs1 & E1 & P1).
  rewrite bind_run.
  destruct (safe_extract lx_extract emotion fuel text w1) as [[r2 w2]|] eqn:H2;
    [|discriminate].
  destruct (safe_extract_never_raises _ _ _ _ _ _ _ H2) as [es ->].
  destruct (safe_extract_log _ _ _ _ _ _ H2) as (evs2 & E2 & P2).
  rewrite bind_run.
  destruct (safe_extract lx_extract relationship fuel text w2) as [[r3 w3]|] eqn:H3;
    [|discriminate].
  destruct (safe_extract_never_raises _ _ _ _ _ _ _ H3) as [rs ->].
  destruct (safe_extract_log _ _ _ _ _ _ H3) as (evs3 & E3 & P3).
  unfold ret. intros H. injection H as _ <-.
  exists (evs1 ++ evs2 ++ evs3). rewrite E3, E2, E1, <- !app_assoc.
  split; [done | by repeat (apply Forall_app; split)].
Qed.

(** The events of the chunk loop from index [i]: plain calls, and a
    2-second sleep after every chunk but the last. *)
Lemma chunk_loop_log fuel n chunks : ∀ i acc w r w',
  (i + length chunks = S n)%nat →
  chunk_loop lx_extract fuel n i chunks acc w = Some (r, w') →
  (∃ results, r = Ok results)
  ∧ ∃ evs, log w' = log w ++ evs
           ∧ Forall (λ ev, is_sleep ev = true ∨ plain_call ev) evs
           ∧ List.filter is_sleep evs
             = replicate (length chunks - 1) (Sleep 2).
Proof.
  induction chunks as [|chunk rest IH]; intros i acc w r w' Hi.
  - simpl. unfold ret. intros H. injection H as <- <-.
    split; [eauto|]. exists []. by rewrite app_nil_r.
  - cbn [chunk_loop]. rewrite bind_run, process_chunk_handler_unreachable.
    rewrite bind_run.
    destruct (extract_kinds lx_extract fuel chunk w) as [[rk wk]|] eqn:Hk;
      [|discriminate].
    destruct (extract_kinds_never_raises _ _ _ _ _ _ Hk) as [results ->].
    destruct (extract_kinds_log _ _ _ _ _ Hk) as (evs1 & E1 & P1).
    rewrite bind_run. simpl in Hi.
    destruct (i <? n)%nat eqn:Hin.
    + unfold sleep at 1. unfold ret at 1. intros Hrest.
      apply Nat.ltb_lt in Hin.
      destruct (IH (S i) _ _ _ _ ltac:(lia) Hrest) as (Hok & evs2 & E2 & P2 & F2).
      split; [done|].
      exists (evs1 ++ Sleep 2 :: evs2).
      rewrite E2. cbn [log record]. rewrite E1, <- !app_assoc.
      split; [done|]. split.
      * apply Forall_app. split.
        -- eapply Forall_impl; [exact P1|]. intros ev Hev. by right.
        -- constructor; [by left | done].
      * rewrite List.filter_app. cbn [List.filter is_sleep]. rewrite F2.
        assert (List.filter is_sleep evs1 = []) as ->.
        { clear -P1. induction P1 as [|ev evs (t & k & ->) _ IHP]; [done|].
          simpl. exact IHP. }
        destruct rest; [simpl in Hi; lia|]. simpl. by rewrite Nat.sub_0_r.
    + unfold ret at 1 2. intros Hrest. apply Nat.ltb_ge in Hin.
      destruct rest; [|simpl in Hi; lia].
      simpl in Hrest. unfold ret in Hrest. injection Hrest as <- <-.
      split; [eauto|]. exists evs1. split; [done|]. split.
      * eapply Forall_impl; [exact P1|]. intros ev Hev. by right.
      * clear -P1. induction P1 as [|ev evs (t & k & ->) _ IHP]; [done|].
        simpl. exact IHP.
Qed.

Lemma chunked_log fuel text max_chunk_size w r w' :
  chunked str_lower lx_extract fuel text max_chunk_size w = Some (r, w') →
  ∃ evs, log w' = log w ++ evs
         ∧ Forall (λ ev, is_sleep ev = true ∨ plain_call ev) evs
         ∧ List.filter is_sleep evs
           = replicate (length (_chunk_text text max_chunk_size) - 1) (Sleep 2).
Proof.
  unfold chunked. rewrite bind_run.
  destruct (chunk_loop _ _ _ _ _ _ w) as [[rl wl]|] eqn:Hloop; [|discriminate].
  apply chunk_loop_log in Hloop as ([all ->] & evs & E & P & F); [|lia].
  unfold ret. intros H. injection H as _ <-. eauto.
Qed.

(** The first event of a safe extraction is the call on its text. *)
Lemma safe_extract_log_head k fuel text w r w' :
  safe_extract lx_extract k fuel text w = Some (r, w') →
  ∃ evs, log w' = log w ++ Call (plain_request text k) :: evs
         ∧ Forall plain_call evs.
Proof.
  destruct fuel as [|fuel]; [discriminate|].
  rewrite safe_extract_unfold. cbn zeta.
  destruct (lx_extract (plain_request text k) (client w)) as [[l|[m|m]] c].
  - intros H. injection H as _ <-. by exists [].
  - destruct (len text >? 1000).
    + intros (items & _ & Hs)%retry_chunks_spec.
      destruct (sub_runs_log plain_call _ _ _ _ _ (safe_extract_log k fuel) Hs)
        as (evs & E & HP).
      exists evs. rewrite E. cbn [log record]. by rewrite <- app_assoc.
    + intros H. injection H as _ <-. by exists [].
  - intros H. injection H as _ <-. by exists [].
Qed.

Lemma extract_kinds_chunk_events fuel text w r w' :
  extract_kinds lx_extract fuel text w = Some (r, w') →
  ∃ group, log w' = log w ++ group ∧ chunk_events text group.
Proof.
  unfold extract_kinds, _safe_extract_characters, _safe_extract_emotions,
    _safe_extract_relationships.
  rewrite bind_run.
  destruct (safe_extract lx_extract character fuel text w) as [[r1 w1]|] eqn:H1;
    [|discriminate].
  destruct (safe_extract_never_raises _ _ _ _ _ _ _ H1) as [cs ->].
  destruct (safe_extract_log_head _ _ _ _ _ _ H1) as (evs1 & E1 & P1).
  intros H.
  assert (∃ evs, log w' = log w1 ++ evs ∧ Forall plain_call evs)
    as (evs2 & E2 & P2).
  { revert H. rewrite bind_run.
    destruct (safe_extract lx_extract emotion fuel text w1) as [[r2 w2]|] eqn:H2;
      [|discriminate].
    destruct (safe_extract_never_raises _ _ _ _ _ _ _ H2) as [es ->].
    destruct (safe_extract_log _ _ _ _ _ _ H2) as (evs2 & E2 & P2).
    rewrite bind_run.
    destruct (safe_extract lx_extract relationship fuel text w2)
      as [[r3 w3]|] eqn:H3; [|discriminate].
    destruct (safe_extract_never_raises _ _ _ _ _ _ _ H3) as [rs ->].
    destruct (safe_extract_log _ _ _ _ _ _ H3) as (evs3 & E3 & P3).
    unfold ret. intros H. injection H as _ <-.
    exists (evs2 ++ evs3). rewrite E3, E2, <- app_assoc.
    split; [done | by apply Forall_app]. }
  exists (Call (plain_request text character) :: evs1 ++ evs2).
  rewrite E2, E1, <- app_assoc. split; [done|].
  exists (evs1 ++ evs2). split; [done | by apply Forall_app].
Qed.

(** The events of the chunk loop from index [i], chunk by chunk. *)
Lemma chunk_loop_paced fuel n chunks : ∀ i acc w r w',
  (i + length chunks = S n)%nat →
  chunk_loop lx_extract fuel n i chunks acc w = Some (r, w') →
  ∃ groups, log w' = log w ++ paced groups
            ∧ Forall2 chunk_events chunks groups.
Proof.
  induction chunks as [|chunk rest IH]; intros i acc w r w' Hi.
  - simpl. unfold ret. intros H. injection H as _ <-.
    exists []. split; [by rewrite app_nil_r | constructor].
  - cbn [chunk_loop]. rewrite bind_run, process_chunk_handler_unreachable.
    rewrite bind_run.
    destruct (extract_kinds lx_extract fuel chunk w) as [[rk wk]|] eqn:Hk;
      [|discriminate].
    destruct (extract_kinds_never_raises _ _ _ _ _ _ Hk) as [results ->].
    destruct (extract_kinds_chunk_events _ _ _ _ _ Hk) as (group & E1 & P1).
    rewrite bind_run. simpl in Hi.
    destruct (i <? n)%nat eqn:Hin.
    + unfold sleep at 1. unfold ret at 1. intros Hrest.
      apply Nat.ltb_lt in Hin.
      destruct (IH (S i) _ _ _ _ ltac:(lia) Hrest) as (groups & E2 & P2).
      exists (group :: groups). split; [|by constructor].
      rewrite E2. cbn [log record]. rewrite E1, <- !app_assoc.
      destruct P2 as [|c g cs gs Hg Hgs]; [simpl in Hi; lia|]. done.
    + unfold ret at 1 2. intros Hrest. apply Nat.ltb_ge in Hin.
      destruct rest; [|simpl in Hi; lia].
      simpl in Hrest. unfold ret in Hrest. injection Hrest as _ <-.
      exists [group]. split; [done | by repeat constructor].
Qed.

(** X9. A chunked extraction that returns has logged one group of events
    per chunk, in the order of the chunks: the group of a chunk starts
    with the character call on that chunk and holds client calls outside
    scaling mode only, and between the groups of two consecutive chunks
    there is one 2-second sleep. There is no sleep before the first chunk
    and none after the last, so the sleeps are one less than the chunks,
    and none is longer. *)
Theorem chunked_pacing fuel text max_chunk_size w r w' :
  chunked str_lower lx_extract fuel text max_chunk_size w = Some (r, w') →
  ∃ groups,
    log w' = log w ++ paced groups
    ∧ Forall2 chunk_events (_chunk_text text max_chunk_size) groups
    ∧ Forall (λ ev, is_sleep ev = true ∨ plain_call ev) (paced groups)
    ∧ List.filter is_sleep (paced groups)
      = replicate (length (_chunk_text text max_chunk_size) - 1) (Sleep 2).
Proof.
  intros H. destruct (chunked_log _ _ _ _ _ _ H) as (evs & E & P & F).
  revert H. unfold chunked. rewrite bind_run.
  destruct (chunk_loop _ _ _ _ _ _ w) as [[rl wl]|] eqn:Hloop; [|discriminate].
  pose proof Hloop as Hl.
  apply chunk_loop_log in Hl as ([all ->] & _); [|lia].
  apply chunk_loop_paced in Hloop as (groups & Eg & Pg); [|lia].
  unfold ret. intros H. injection H as _ <-.
  exists groups. split; [done|]. split; [done|].
  rewrite Eg in E. apply app_inv_head in E. by rewrite E.
Qed.

Lemma chunked_returns_ok fuel text max_chunk_size w r w' :
  chunked str_lower lx_extract fuel text max_chunk_size w = Some (r, w') →
  ∃ all wl,
    chunk_loop lx_extract fuel (length (_chunk_text text max_chunk_size)) 1
               (_chunk_text text max_chunk_size) no_results w
      = Some (Ok all, wl)
    ∧ w' = wl
    ∧ r = Ok {| characters := _deduplicate_characters str_lower (characters all);
                emotions := emotions all;
                relationships := _deduplicate_relationships (relationships all) |}.
Proof.
  unfold chunked. rewrite bind_run.
  destruct (chunk_loop _ _ _ _ _ _ w) as [[rl wl]|] eqn:Hloop; [|discriminate].
  pose proof Hloop as Hl.
  apply chunk_loop_log in Hl as ([all ->] & _); [|lia].
  unfold ret. intros H. injection H as <- <-. eauto.
Qed.

(** X10. [extract_all] never raises: whatever the client does, a run that
    returns gives a result dictionary. *)
Theorem extract_all_never_raises fuel text max_chunk_size use_scaling
    passes workers buffer w r w' :
  extract_all str_lower lx_extract fuel text max_chunk_size use_scaling
              passes workers buffer w = Some (r, w') →
  ∃ results, r = Ok results.
Proof.
  unfold extract_all. rewrite bind_run.
  assert (∀ o w1,
            (match o with
             | Some results => ret results
             | None =>
                 if len text >? max_chunk_size
                 then chunked str_lower lx_extract fuel text max_chunk_size
                 else extract_kinds lx_extract fuel text
             end) w1 = Some (r, w') → ∃ results, r = Ok results) as Hrest.
  { intros [results|] w1.
    - unfold ret. intros H. injection H as <- _. eauto.
    - destruct (len text >? max_chunk_size).
      + intros (all & wl & _ & _ & ->)%chunked_returns_ok. eauto.
      + apply extract_kinds_never_raises. }
  destruct (use_scaling && (len text >? max_chunk_size)).
  - destruct (scaled_attempt_run lx_extract text passes workers buffer w)
      as (scaled & w1 & evs & -> & _). apply Hrest.
  - unfold ret at 1. apply (Hrest None).
Qed.

(** X11. With scaling disabled, or on a text within the threshold,
    [extract_all] never calls the client in scaling mode; and within the
    threshold it never sleeps. *)
Theorem extract_all_no_scaling fuel text max_chunk_size use_scaling
    passes workers buffer w r w' :
  use_scaling = false ∨ len text ≤ max_chunk_size →
  extract_all str_lower lx_extract fuel text max_chunk_size use_scaling
              passes workers buffer w = Some (r, w') →
  ∃ evs, log w' = log w ++ evs
         ∧ Forall (λ ev, is_sleep ev = true ∨ plain_call ev) evs
         ∧ (len text ≤ max_chunk_size → Forall plain_call evs).
Proof.
  intros Hcase. unfold extract_all. rewrite bind_run.
  assert ((use_scaling && (len text >? max_chunk_size)) = false) as ->.
  { destruct Hcase as [->|Hle]; [done|].
    assert ((len text >? max_chunk_size) = false) as -> by lia.
    apply andb_false_r. }
  unfold ret at 1. destruct (len text >? max_chunk_size) eqn:Hlen.
  - intros (evs & E & P & _)%chunked_log. exists evs.
    split; [done|]. split; [done|]. lia.
  - intros (evs & E & P)%extract_kinds_log. exists evs.
    split; [done|]. split; [|done].
    eapply Forall_impl; [exact P|]. intros ev Hev. by right.
Qed.

Lemma dedup_by_NoDup_names (characters : list Character) :
  NoDup (name <$> _deduplicate_characters str_lower characters).
Proof.
  destruct (dedup_by_spec (normalized_name str_lower) characters)
    as (_ & _ & Hnd & _).
  eapply (NoDup_fmap_1
            (λ n, str_lower (remove_char 0x3000 (remove_char 0x20 n)))).
  rewrite <- list_fmap_compose. exact Hnd.
Qed.

(** X12. In the result of a chunked extraction no two characters have the
    same name, or the same normalized name, and no two relationships have
    the same [(person1, person2, relation_type)]. *)
Theorem chunked_results_are_deduplicated fuel text max_chunk_size w results w' :
  chunked str_lower lx_extract fuel text max_chunk_size w
    = Some (Ok results, w') →
  NoDup (name <$> characters results)
  ∧ NoDup (normalized_name str_lower <$> characters results)
  ∧ NoDup (rel_triple <$> relationships results).
Proof.
  intros (all & wl & _ & _ & H)%chunked_returns_ok. injection H as ->.
  cbn [characters relationships]. split; [apply dedup_by_NoDup_names|]. split.
  - by destruct (dedup_by_spec (normalized_name str_lower) (characters all))
      as (_ & _ & Hnd & _).
  - destruct (dedup_by_spec rel_key (relationships all)) as (_ & _ & Hnd & _).
    eapply (NoDup_fmap_1
              (λ t : str * str * str,
                 t.1.1 ++ lit "_" ++ t.1.2 ++ lit "_" ++ t.2)).
    rewrite <- list_fmap_compose. exact Hnd.
Qed.

(** *** Runs with a client that never answers with a malformed response *)

Lemma chunk_loop_returns fuel n chunks : ∀ i acc w,
  (∀ text, never_malformed lx_extract text) →
  ∃ all w', chunk_loop lx_extract (S fuel) n i chunks acc w = Some (Ok all, w').
Proof.
  induction chunks as [|chunk rest IH]; intros i acc w Hnm.
  - simpl. unfold ret. eauto.
  - cbn [chunk_loop]. rewrite bind_run, process_chunk_handler_unreachable.
    rewrite bind_run.
    destruct (extract_kinds_single_calls lx_extract fuel chunk w
                (or_intror (Hnm chunk))) as (results & w1 & -> & _).
    rewrite bind_run. destruct (i <? n)%nat.
    + unfold sleep at 1. unfold ret at 1. apply IH, Hnm.
    + unfold ret at 1 2. apply IH, Hnm.
Qed.

(** X13. With a client that never answers with a malformed response,
    [extract_all] returns a result for every text and every setting (one
    unit of fuel is enough: the safe operations do not re-enter
    themselves). *)
Theorem extract_all_returns fuel text max_chunk_size use_scaling
    passes workers buffer w :
  (∀ text, never_malformed lx_extract text) →
  ∃ results w',
    extract_all str_lower lx_extract (S fuel) text max_chunk_size use_scaling
                passes workers buffer w = Some (Ok results, w').
Proof.
  intros Hnm. unfold extract_all. rewrite bind_run.
  assert (∀ o w1, ∃ results w',
            (match o with
             | Some results => ret results
             | None =>
                 if len text >? max_chunk_size
                 then chunked str_lower lx_extract (S fuel) text max_chunk_size
                 else extract_kinds lx_extract (S fuel) text
             end) w1 = Some (Ok results, w')) as Hrest.
  { intros [results|] w1; [unfold ret; eauto|].
    destruct (len text >? max_chunk_size).
    - unfold chunked. rewrite bind_run.
      destruct (chunk_loop_returns fuel
                  (length (_chunk_text text max_chunk_size))
                  (_chunk_text text max_chunk_size) 1%nat no_results w1 Hnm)
        as (all & wl & ->).
      unfold ret. eauto.
    - destruct (extract_kinds_single_calls lx_extract fuel text w1
                  (or_intror (Hnm text))) as (results & w' & -> & _).
      eauto. }
  destruct (use_scaling && (len text >? max_chunk_size)).
  - destruct (scaled_attempt_run lx_extract text passes workers buffer w)
      as (scaled & w1 & evs & -> & _). apply Hrest.
  - unfold ret at 1. apply (Hrest None).
Qed.

End MoreRuns.

(** *** The orchestrator's properties at concrete runs *)

Lemma echo_client_never_malformed (text : str) :
  never_malformed echo_client text.
Proof. intros k st msg c H. discriminate H. Qed.

(** X9 at a run over the two chunks of [ab。cd]. *)
Lemma chunked_pacing_witness :
  ∃ w' first second,
    (∃ r, chunked lower_ascii echo_client 1 two_chunks 3 (fresh tt)
          = Some (r, w'))
    ∧ log w' = (Call (plain_request chunk_ab character) :: first)
               ++ Sleep 2 :: Call (plain_request chunk_cd character) :: second
    ∧ Forall plain_call first
    ∧ Forall plain_call second.
Proof.
  destruct (chunked lower_ascii echo_client 1 two_chunks 3 (fresh tt))
    as [[r w']|] eqn:E; [|vm_compute in E; discriminate E].
  destruct (chunked_pacing echo_client lower_ascii 1 two_chunks 3 (fresh tt)
              r w' E) as (groups & Hlog & Hgroups & _).
  change (_chunk_text two_chunks 3) with [chunk_ab; chunk_cd] in Hgroups.
  apply Forall2_cons_inv_l in Hgroups
    as (g1 & later & (first & -> & Hfirst) & Hlater & ->).
  apply Forall2_cons_inv_l in Hlater
    as (g2 & none & (second & -> & Hsecond) & Hnone & ->).
  apply Forall2_nil_inv_l in Hnone as ->.
  exists w', first, second. split; [eauto|]. split; [exact Hlog|].
  split; [exact Hfirst | exact Hsecond].
Defined.

(** X10 at a run whose first client call raises. *)
Lemma extract_all_never_raises_witness :
  ∃ results w',
    extract_all lower_ascii (fails_first 1 rate_limit_error) 1 two_chunks 3
                false 2 10 1000 (fresh 0%nat)
    = Some (Ok results, w').
Proof.
  destruct (extract_all lower_ascii (fails_first 1 rate_limit_error) 1
              two_chunks 3 false 2 10 1000 (fresh 0%nat))
    as [[r w']|] eqn:E; [|vm_compute in E; discriminate E].
  destruct (extract_all_never_raises (fails_first 1 rate_limit_error)
              lower_ascii 1 two_chunks 3 false 2 10 1000 (fresh 0%nat) r w' E)
    as [results ->].
  eauto.
Defined.

(** X11 at a text within the default threshold. *)
Lemma extract_all_no_scaling_witness :
  ∃ w' evs,
    (∃ r, extract_all lower_ascii echo_client 1 two_chunks 3000 true 2 10 1000
                      (fresh tt) = Some (r, w'))
    ∧ log w' = evs ∧ Forall plain_call evs.
Proof.
  destruct (extract_all lower_ascii echo_client 1 two_chunks 3000 true 2 10
              1000 (fresh tt))
    as [[r w']|] eqn:E; [|vm_compute in E; discriminate E].
  destruct (extract_all_no_scaling echo_client lower_ascii 1 two_chunks 3000
              true 2 10 1000 (fresh tt) r w') as (evs & Hlog & _ & Hplain).
  - right. vm_compute. discriminate.
  - exact E.
  - exists w', evs. split; [eauto|]. split; [exact Hlog|].
    apply Hplain. vm_compute. discriminate.
Defined.

(** X12 at a run over the two chunks of [ab。cd]. *)
Lemma chunked_results_are_deduplicated_witness :
  ∃ results w',
    chunked lower_ascii echo_client 1 two_chunks 3 (fresh tt)
    = Some (Ok results, w')
    ∧ NoDup (name <$> characters results)
    ∧ NoDup (rel_triple <$> relationships results).
Proof.
  destruct (chunked lower_ascii echo_client 1 two_chunks 3 (fresh tt))
    as [[[results|e] w']|] eqn:E;
    [| vm_compute in E; discriminate E | vm_compute in E; discriminate E].
  destruct (chunked_results_are_deduplicated echo_client lower_ascii 1
              two_chunks 3 (fresh tt) results w' E) as (H1 & _ & H3).
  eauto.
Defined.

(** X13 at a client that always succeeds. *)
Lemma extract_all_returns_witness :
  ∃ results w',
    extract_all lower_ascii echo_client 1 two_chunks 3 true 2 10 1000
                (fresh tt)
    = Some (Ok results, w').
Proof.
  apply (extract_all_returns echo_client lower_ascii 0).
  apply echo_client_never_malformed.
Defined.

(** ** The text normalizer *)

Lemma startswith_spec (p s : str) :
  startswith p s = true ↔ ∃ r, s = p ++ r.
Proof.
  revert s. induction p as [|a p IH]; intros s; simpl.
  - split; [intros _; by exists s | done].
  - destruct s as [|b s]; [split; [done | by intros [r ?]]|].
    rewrite andb_true_iff, N.eqb_eq, IH. split.
    + intros [-> [r ->]]. by exists r.
    + intros [r H]. injection H as -> ->. eauto.
Qed.

Lemma contains_spec (sub s : str) :
  contains sub s = true ↔ ∃ a b, s = a ++ sub ++ b.
Proof.
  induction s as [|c s IH]; simpl.
  - rewrite orb_false_r, startswith_spec. split.
    + intros [r H]. by exists [], r.
    + intros (a & b & H). destruct a as [|x a]; [by exists b|done].
  - rewrite orb_true_iff, startswith_spec, IH. split.
    + intros [[r H]|(a & b & ->)]; [by exists [], r | by exists (c :: a), b].
    + intros (a & b & H). destruct a as [|x a]; [left; by exists b|].
      right. injection H as -> ->. eauto.
Qed.

(** A text that does not contain [sub] has no part that does. *)
Lemma contains_infix (sub a t b : str) :
  contains sub (a ++ t ++ b) = false → contains sub t = false.
Proof.
  intros H. destruct (contains sub t) eqn:Ht; [|done].
  apply contains_spec in Ht as (a' & b' & ->).
  assert (contains sub (a ++ (a' ++ sub ++ b') ++ b) = true) as Hc.
  { apply contains_spec. exists (a ++ a'), (b' ++ b). by rewrite <- !app_assoc. }
  congruence.
Qed.

(** *** Shortening runs *)

Lemma startswith_replicate_S (j : nat) (d x : N) (s : str) :
  startswith (replicate (S j) d) (x :: s)
  = (d =? x)%N && startswith (replicate j d) s.
Proof. reflexivity. Qed.

Lemma startswith_replicate_le (j k : nat) (d : N) (s : str) :
  (j ≤ k)%nat → startswith (replicate k d) s = true →
  startswith (replicate j d) s = true.
Proof.
  revert k s. induction j as [|j IH]; intros k s Hle; [done|].
  destruct k as [|k]; [lia|]. destruct s as [|x s]; [done|].
  rewrite !startswith_replicate_S, !andb_true_iff.
  intros [? ?]. split; [done|]. eapply IH; [|eassumption]. lia.
Qed.

(** Dropping the characters [c] that are followed by [S k] more leaves
    every leading run as long as it was, up to [S k] for a run of [c]. *)
Lemma drop_before_startswith (c d : N) (k : nat) (s : str) : ∀ j,
  d ≠ c ∨ (j ≤ S k)%nat →
  startswith (replicate j d) (drop_before c (replicate (S k) c) s)
  = startswith (replicate j d) s.
Proof.
  induction s as [|x s IH]; intros j Hj; [done|].
  destruct j as [|j]; [done|].
  cbn [drop_before].
  destruct ((x =? c)%N && startswith (replicate (S k) c) s) eqn:Hdrop.
  - apply andb_true_iff in Hdrop as [->%N.eqb_eq Hrun].
    rewrite IH by done. rewrite startswith_replicate_S.
    destruct (N.eqb_spec d c) as [->|Hne].
    + destruct Hj as [?|Hj]; [done|].
      rewrite (startswith_replicate_le (S j) (S k) c s) by (done || lia).
      rewrite (startswith_replicate_le j (S k) c s) by (done || lia). done.
    + destruct s as [|y s]; [done|].
      rewrite startswith_replicate_S in Hrun.
      apply andb_true_iff in Hrun as [->%N.eqb_eq _].
      rewrite startswith_replicate_S.
      by destruct (N.eqb_spec d y).
  - rewrite !startswith_replicate_S. f_equal. apply IH.
    destruct Hj as [?|?]; [by left | right; lia].
Qed.

(** After the substitution no run of [c] is longer than [S k]. *)
Lemma drop_before_bounds_runs (c : N) (k : nat) (s : str) :
  contains (replicate (S (S k)) c) (drop_before c (replicate (S k) c) s) = false.
Proof.
  induction s as [|x s IH]; [done|]. cbn [drop_before].
  destruct ((x =? c)%N && startswith (replicate (S k) c) s) eqn:Hdrop; [done|].
  cbn [contains]. rewrite IH, orb_false_r, startswith_replicate_S.
  rewrite drop_before_startswith by (right; lia).
  by rewrite N.eqb_sym.
Qed.

(** The substitution creates no run of another character. *)
Lemma drop_before_keeps_runs (c d : N) (k j : nat) (s : str) :
  d ≠ c →
  contains (replicate (S j) d) s = false →
  contains (replicate (S j) d) (drop_before c (replicate (S k) c) s) = false.
Proof.
  intros Hne. induction s as [|x s IH]; [done|].
  cbn [contains]. intros [Hhead Htail]%orb_false_elim. cbn [drop_before].
  destruct ((x =? c)%N && startswith (replicate (S k) c) s); [by apply IH|].
  cbn [contains]. rewrite IH, orb_false_r by done.
  rewrite startswith_replicate_S in *.
  by rewrite drop_before_startswith by by left.
Qed.

(** *** Lines *)

Lemma str_split_nonempty sep text : str_split sep text ≠ [].
Proof. apply re_split_nonempty. Qed.

(** Joining the lines of a text gives the text back. *)
Lemma str_join_split (sep : N) (text : str) :
  str_join [sep] (str_split sep text) = text.
Proof.
  unfold str_split. induction text as [|c text IH]; [done|].
  cbn [re_split]. destruct (N.eqb_spec sep c) as [->|Hne].
  - destruct (re_split (N.eqb c) text) as [|s ss] eqn:Hs;
      [by apply re_split_nonempty in Hs|].
    cbn [str_join] in *. by rewrite IH.
  - destruct (re_split (N.eqb sep) text) as [|s ss] eqn:Hs;
      [by apply re_split_nonempty in Hs|].
    cbn [str_join] in *. destruct ss; simpl in *; by rewrite <- IH.
Qed.

Lemma str_join_app (sep : str) (l1 l2 : list str) :
  l1 ≠ [] → l2 ≠ [] →
  str_join sep (l1 ++ l2) = str_join sep l1 ++ sep ++ str_join sep l2.
Proof.
  intros H1 H2. induction l1 as [|p l1 IH]; [done|].
  destruct l1 as [|q l1].
  - destruct l2; [done|]. reflexivity.
  - change (str_join sep ((p :: q :: l1) ++ l2))
      with (p ++ sep ++ str_join sep ((q :: l1) ++ l2)).
    rewrite IH by done. cbn [str_join]. by rewrite <- !app_assoc.
Qed.

Lemma str_join_infix (sep : str) (l1 l2 l3 : list str) :
  ∃ a b, str_join sep (l1 ++ l2 ++ l3) = a ++ str_join sep l2 ++ b.
Proof.
  destruct l2 as [|p2 l2]; [by eexists _, []; rewrite app_nil_r|].
  destruct l1 as [|p1 l1], l3 as [|p3 l3].
  - exists [], []. by rewrite !app_nil_r.
  - exists [], (sep ++ str_join sep (p3 :: l3)).
    rewrite app_nil_l. by rewrite (str_join_app sep (p2 :: l2) (p3 :: l3)).
  - exists (str_join sep (p1 :: l1) ++ sep), []. rewrite !app_nil_r.
    by rewrite (str_join_app sep (p1 :: l1) (p2 :: l2)), <- app_assoc.
  - exists (str_join sep (p1 :: l1) ++ sep), (sep ++ str_join sep (p3 :: l3)).
    rewrite (str_join_app sep (p1 :: l1)) by done.
    rewrite (str_join_app sep (p2 :: l2) (p3 :: l3)) by done.
    by rewrite <- !app_assoc.
Qed.

Lemma slice_infix {A} (l : list A) (start_idx end_idx : nat) :
  l = take start_idx l ++ slice l start_idx end_idx
      ++ drop (end_idx - start_idx) (drop start_idx l).
Proof. unfold slice. by rewrite take_drop, take_drop. Qed.

Lemma first_index_none p lines i :
  Forall (λ line, p line = false) lines → first_index p lines i = None.
Proof.
  intros H. revert i. induction H as [|line lines Hl _ IH]; intros i; [done|].
  simpl. by rewrite Hl, IH.
Qed.

Lemma last_index_none p lines i :
  Forall (λ line, p line = false) lines → last_index p lines i = None.
Proof.
  intros H. revert i. induction H as [|line lines Hl _ IH]; intros i; [done|].
  simpl. by rewrite IH, Hl.
Qed.

Lemma remove_headers_footers_cuts_infix (text : str) :
  ∃ a b, text = a ++ _remove_headers_footers text ++ b.
Proof.
  unfold _remove_headers_footers. cbn zeta.
  set (lines := str_split 0x0A text).
  set (start_idx := match first_index _ lines 0 with Some i => S i | None => 0%nat end).
  set (end_idx := match last_index _ lines 0 with Some i => i | None => length lines end).
  destruct (str_join_infix [0x0A%N] (take start_idx lines)
              (slice lines start_idx end_idx)
              (drop (end_idx - start_idx) (drop start_idx lines)))
    as (a & b & Hab).
  exists a, b. rewrite <- Hab, <- slice_infix. subst lines.
  symmetry. apply str_join_split.
Qed.

(** X14. [_remove_headers_footers] only cuts: what it returns is made of
    consecutive whole lines of the text, and is a contiguous part of the
    text. *)
Theorem remove_headers_footers_cuts (text : str) :
  ∃ before kept after,
    str_split 0x0A text = before ++ kept ++ after
    ∧ _remove_headers_footers text = str_join [0x0A%N] kept
    ∧ ∃ a b, text = a ++ _remove_headers_footers text ++ b.
Proof.
  unfold _remove_headers_footers. cbn zeta.
  set (lines := str_split 0x0A text).
  set (start_idx := match first_index _ lines 0 with Some i => S i | None => 0%nat end).
  set (end_idx := match last_index _ lines 0 with Some i => i | None => length lines end).
  eexists _, (slice lines start_idx end_idx), _.
  split; [apply (slice_infix lines start_idx end_idx)|]. split; [done|].
  apply remove_headers_footers_cuts_infix.
Qed.

(** X15. A text none of whose lines holds a header or footer marker comes
    back from [_remove_headers_footers] unchanged. *)
Theorem remove_headers_footers_no_marker (text : str) :
  Forall (λ line, any_marker_in HEADER_MARKERS line = false
                  ∧ any_marker_in FOOTER_MARKERS line = false)
         (str_split 0x0A text) →
  _remove_headers_footers text = text.
Proof.
  intros H. unfold _remove_headers_footers. cbn zeta.
  rewrite first_index_none, last_index_none.
  - unfold slice. rewrite Nat.sub_0_r, drop_0, firstn_all. apply str_join_split.
  - eapply Forall_impl; [exact H|]. by intros line [_ ?].
  - eapply Forall_impl; [exact H|]. by intros line [? _].
Qed.

(** X15 at a text of two lines without markers. *)
Lemma remove_headers_footers_no_marker_witness :
  _remove_headers_footers indented_text = indented_text.
Proof.
  apply remove_headers_footers_no_marker.
  repeat constructor.
Defined.

(** *** Stripping *)

Lemma lstrip_idempotent (s : str) : lstrip (lstrip s) = lstrip s.
Proof.
  induction s as [|c s IH]; [done|]. simpl.
  destruct (Py_UNICODE_ISSPACE c) eqn:Hc; [exact IH|]. simpl. by rewrite Hc.
Qed.

Lemma strip_idempotent (s : str) : strip (strip s) = strip s.
Proof.
  unfold strip.
  assert (lstrip (rstrip (lstrip s)) = rstrip (lstrip s)) as ->.
  { destruct (lstrip s) as [|c t] eqn:Ht; [done|].
    assert (Py_UNICODE_ISSPACE c = false) as Hc.
    { pose proof (lstrip_idempotent s) as Hi. rewrite Ht in Hi. simpl in Hi.
      destruct (Py_UNICODE_ISSPACE c) eqn:Hc; [|done].
      pose proof (lstrip_length t) as Hl. rewrite Hi in Hl. simpl in Hl. lia. }
    unfold rstrip. rewrite reverse_cons.
    rewrite (lstrip_app_nonspace (reverse t) [] c Hc).
    rewrite reverse_app. simpl. by rewrite Hc. }
  unfold rstrip. by rewrite reverse_involutive, lstrip_idempotent.
Qed.

Lemma strip_infix (s : str) : ∃ a b, s = a ++ strip s ++ b.
Proof.
  unfold strip, rstrip.
  destruct (lstrip_suffix s) as [a Ha].
  destruct (lstrip_suffix (reverse (lstrip s))) as [b Hb].
  exists a, (reverse b). rewrite <- reverse_app, <- Hb, reverse_involutive.
  exact Ha.
Qed.

(** X16. Whatever the ruby and annotation substitutions leave, the text
    [normalize] returns is stripped and holds no two consecutive
    ideographic spaces, no two consecutive spaces and no three consecutive
    line breaks. *)
Theorem normalize_whitespace (remove_markup : str → str) (text : str) :
  let out := normalize remove_markup text in
  strip out = out
  ∧ contains [0x3000; 0x3000]%N out = false
  ∧ contains [0x20; 0x20]%N out = false
  ∧ contains [0x0A; 0x0A; 0x0A]%N out = false.
Proof.
  unfold normalize. cbn zeta.
  set (t1 := sub_crlf (remove_markup text)).
  set (t2 := squeeze 0x3000 t1).
  set (t3 := collapse_blank_lines t2).
  set (t4 := squeeze 0x20 t3).
  assert (contains [0x3000; 0x3000]%N t2 = false) as H2
    by apply (drop_before_bounds_runs 0x3000 0).
  assert (contains [0x0A; 0x0A; 0x0A]%N t3 = false) as H3
    by apply (drop_before_bounds_runs 0x0A 1).
  assert (contains [0x3000; 0x3000]%N t3 = false) as H3'
    by (apply (drop_before_keeps_runs 0x0A 0x3000 1 1); done).
  assert (contains [0x20; 0x20]%N t4 = false) as H4
    by apply (drop_before_bounds_runs 0x20 0).
  assert (contains [0x3000; 0x3000]%N t4 = false) as H4'
    by (apply (drop_before_keeps_runs 0x20 0x3000 0 1); done).
  assert (contains [0x0A; 0x0A; 0x0A]%N t4 = false) as H4''
    by (apply (drop_before_keeps_runs 0x20 0x0A 0 2); done).
  destruct (remove_headers_footers_cuts_infix t4) as (a & b & Hab).
  destruct (strip_infix (_remove_headers_footers t4)) as (a' & b' & Hab').
  split; [apply strip_idempotent|].
  rewrite Hab in H4, H4', H4''.
  apply contains_infix in H4, H4', H4''.
  rewrite Hab' in H4, H4', H4''.
  apply contains_infix in H4, H4', H4''. done.
Qed.

(** ** The summary statistics *)

Lemma occurrences_cons (key x : str) (keys : list str) :
  occurrences key (x :: keys)
  = if decide (x = key) then S (occurrences key keys) else occurrences key keys.
Proof. unfold occurrences. rewrite filter_cons. by destruct (decide (x = key)). Qed.

Lemma occurrences_absent (key : str) (keys : list str) :
  key ∉ keys → occurrences key keys = 0%nat.
Proof.
  induction keys as [|x keys IH]; [done|]. intros Hk.
  rewrite occurrences_cons, decide_False, IH; [done | |].
  - intros ?. apply Hk. by right.
  - intros ->. apply Hk. by left.
Qed.

Lemma Counter_fold_lookup (keys : list str) : ∀ (counts : gmap str nat) key,
  fold_left (λ counts key, <[key := S (default 0%nat (counts !! key))]> counts)
            keys counts !! key
  = if decide (key ∈ keys)
    then Some (default 0%nat (counts !! key) + occurrences key keys)%nat
    else counts !! key.
Proof.
  induction keys as [|x keys IH]; intros counts key.
  - cbn [fold_left].
    destruct (decide (key ∈ [])) as [H|]; [by apply elem_of_nil in H | done].
  - cbn [fold_left]. rewrite IH, occurrences_cons.
    destruct (decide (x = key)) as [->|Hne].
    + rewrite lookup_insert_eq. change (default 0%nat (Some ?n)) with n.
      rewrite (decide_True (P := key ∈ key :: keys)) by by left.
      destruct (decide (key ∈ keys)) as [Hin|Hout].
      * apply (f_equal Some). lia.
      * rewrite occurrences_absent by done. apply (f_equal Some). lia.
    + rewrite lookup_insert_ne by done.
      destruct (decide (key ∈ keys)) as [Hin|Hout].
      * by rewrite decide_True by by right.
      * rewrite decide_False; [done|].
        intros [?|?]%elem_of_cons; congruence.
Qed.

(** A counter holds, for each key that occurs, the number of its
    occurrences, and nothing for the others. *)
Lemma Counter_lookup (keys : list str) (key : str) :
  Counter keys !! key
  = if decide (key ∈ keys) then Some (occurrences key keys) else None.
Proof.
  unfold Counter. rewrite Counter_fold_lookup, lookup_empty. done.
Qed.

Lemma total_count_insert (counts : gmap str nat) (key : str) :
  total_count (<[key := S (default 0%nat (counts !! key))]> counts)
  = S (total_count counts).
Proof.
  unfold total_count.
  assert (∀ (m : gmap str nat) (j1 j2 : str) (z1 z2 y : nat),
            j1 ≠ j2 → m !! j1 = Some z1 → m !! j2 = Some z2 →
            (z1 + (z2 + y) = z2 + (z1 + y))%nat) as Hcomm by (intros; lia).
  destruct (counts !! key) as [n|] eqn:Hk; cbn [default].
  - rewrite <- (insert_delete_eq counts key (S n)).
    rewrite map_fold_insert_L; [|apply Hcomm | apply lookup_delete_eq].
    rewrite <- (insert_delete_id counts key n) at 2 by done.
    rewrite (map_fold_insert_L _ _ key n);
      [|apply Hcomm | apply lookup_delete_eq].
    lia.
  - by rewrite map_fold_insert_L; [|apply Hcomm|].
Qed.

Lemma Counter_total (keys : list str) : total_count (Counter keys) = length keys.
Proof.
  unfold Counter.
  assert (∀ counts,
            total_count
              (fold_left (λ counts key,
                            <[key := S (default 0%nat (counts !! key))]> counts)
                         keys counts)
            = (total_count counts + length keys)%nat) as H.
  { induction keys as [|x keys IH]; intros counts; simpl; [lia|].
    rewrite IH, total_count_insert. lia. }
  rewrite H. unfold total_count. by rewrite map_fold_empty.
Qed.

(** X17. In the summary, [emotion_types], [relation_types] and
    [gender_distribution] hold for each value that occurs the number of
    records with it, and no entry for a value that does not occur. *)
Theorem summary_counts (results : Results) (key : str) :
  let stats := get_summary_stats results in
  let count_in keys :=
    if decide (key ∈ keys) then Some (occurrences key keys) else None in
  emotion_types stats !! key = count_in (emotion_type <$> emotions results)
  ∧ relation_types stats !! key
    = count_in (relation_type <$> relationships results)
  ∧ gender_distribution stats !! key = count_in (gender <$> characters results).
Proof. cbn. repeat split; apply Counter_lookup. Qed.

(** X18. The counts of each distribution add up to the number of records:
    emotions by type, relationships by type, characters by gender. *)
Theorem summary_totals (results : Results) :
  let stats := get_summary_stats results in
  total_count (emotion_types stats) = total_emotions stats
  ∧ total_count (relation_types stats) = total_relationships stats
  ∧ total_count (gender_distribution stats) = total_characters stats.
Proof.
  cbn. repeat split; rewrite Counter_total; apply length_fmap.
Qed.

Lemma size_list_to_set_le (l : list str) :
  (size (list_to_set l : gset str) ≤ length l)%nat.
Proof.
  induction l as [|x l IH]; [by rewrite list_to_set_nil, size_empty|].
  rewrite list_to_set_cons, size_union_alt, size_singleton. cbn [length].
  assert (size (list_to_set l ∖ {[x]} : gset str) ≤ size (list_to_set l : gset str))%nat
    by (apply subseteq_size, subseteq_difference_l; done).
  lia.
Qed.

(** X19. The summary never counts more unique names than characters, nor
    more characters with emotions than emotions; and for characters that
    went through [_deduplicate_characters] every name is unique. *)
Theorem summary_unique_names (str_lower : str → str) (results : Results)
    (found : list Character) :
  let stats := get_summary_stats results in
  (unique_names stats ≤ total_characters stats)%nat
  ∧ (characters_with_emotions stats ≤ total_emotions stats)%nat
  ∧ (characters results = _deduplicate_characters str_lower found →
     unique_names stats = total_characters stats).
Proof.
  cbn. split; [|split].
  - etrans; [apply size_list_to_set_le|]. by rewrite length_fmap.
  - etrans; [apply size_list_to_set_le|]. by rewrite length_fmap.
  - intros ->. rewrite size_list_to_set, length_fmap; [done|].
    apply dedup_by_NoDup_names.
Qed.

(** ** The directory name of a work *)

(** X20. The directory name made from a work title has the length of the
    title and holds no space and no slash; making it again changes
    nothing, and a title without space or slash is its own directory
    name. *)
Theorem safe_work_name_safe (work_name : str) :
  let dir := safe_work_name work_name in
  length dir = length work_name
  ∧ (0x20%N ∉ dir) ∧ (0x2F%N ∉ dir)
  ∧ safe_work_name dir = dir
  ∧ (0x20%N ∉ work_name → 0x2F%N ∉ work_name → dir = work_name).
Proof.
  cbn zeta. unfold safe_work_name, replace_char.
  rewrite <- !list_fmap_compose. split; [by rewrite length_fmap|].
  assert (∀ c : N,
            ((λ c, if (c =? 0x2F)%N then 0x5F%N else c)
               ∘ (λ c, if (c =? 0x20)%N then 0x5F%N else c)) c ≠ 0x20%N
            ∧ ((λ c, if (c =? 0x2F)%N then 0x5F%N else c)
                 ∘ (λ c, if (c =? 0x20)%N then 0x5F%N else c)) c ≠ 0x2F%N)
    as Hout.
  { intros c. simpl. destruct (N.eqb_spec c 0x20) as [->|H1]; [done|].
    by destruct (N.eqb_spec c 0x2F) as [->|H2]. }
  split; [|split; [|split]].
  - intros (c & Hc & _)%list_elem_of_fmap. by destruct (Hout c).
  - intros (c & Hc & _)%list_elem_of_fmap. by destruct (Hout c).
  - induction work_name as [|c l IH]; [done|]. simpl in *. f_equal; [|exact IH].
    destruct (N.eqb_spec c 0x20) as [->|H1]; [done|].
    destruct (N.eqb_spec c 0x2F) as [->|H2]; [done|].
    destruct (N.eqb_spec c 0x20); [done|]. by destruct (N.eqb_spec c 0x2F).
  - intros H1 H2. induction work_name as [|c l IH]; [done|]. simpl. f_equal.
    + destruct (N.eqb_spec c 0x20) as [->|]; [exfalso; apply H1; by left|].
      destruct (N.eqb_spec c 0x2F) as [->|]; [exfalso; apply H2; by left|done].
    + apply IH; intros ?; [apply H1 | apply H2]; by right.
Qed.

(** ** The command line *)

Lemma list_index_spec (x : str) (l : list str) (i : nat) :
  list_index x l = Some i →
  ∃ pre post, l = pre ++ x :: post ∧ (x ∉ pre) ∧ length pre = i.
Proof.
  revert i. induction l as [|y l IH]; intros i; [done|]. simpl.
  destruct (decide (y = x)) as [->|Hne].
  - intros H. injection H as <-. exists [], l.
    split; [done|]. split; [apply not_elem_of_nil | done].
  - destruct (list_index x l) as [j|]; [|done]. simpl.
    intros H. injection H as <-.
    destruct (IH j eq_refl) as (pre & post & -> & Hpre & Hlen).
    exists (y :: pre), post. split; [done|]. split; [|by simpl; rewrite Hlen].
    intros [?|?]%elem_of_cons; congruence.
Qed.

Lemma list_index_absent (x : str) (l : list str) :
  x ∉ l → list_index x l = None.
Proof.
  induction l as [|y l IH]; [done|]. intros Hx. simpl.
  rewrite decide_False.
  - rewrite IH; [done|]. intros ?. apply Hx. by right.
  - intros ->. apply Hx. by left.
Qed.

Lemma list_index_first (x : str) (pre post : list str) :
  x ∉ pre → list_index x (pre ++ x :: post) = Some (length pre).
Proof.
  induction pre as [|y pre IH]; intros Hx; simpl.
  - by rewrite decide_True.
  - rewrite decide_False.
    + rewrite IH; [done|]. intros ?. apply Hx. by right.
    + intros ->. apply Hx. by left.
Qed.

Lemma work_argument_spec (model_id : option str) (args : list str) (work : str) :
  work_argument model_id args = inr work →
  work ∈ works
  ∧ (work = RASHOMON
     ∨ (work ∈ args ∧ startswith (lit "--") work = false
        ∧ Some work ≠ model_id)).
Proof.
  induction args as [|arg rest IH]; cbn [work_argument].
  - intros H. injection H as <-. split; [by left | by left].
  - destruct (negb (startswith (lit "--") arg)
              && negb (bool_decide (Some arg = model_id))) eqn:Hsel.
    + destruct (decide (arg ∈ works)) as [Hin|]; [|done].
      intros H. injection H as <-. split; [done|]. right.
      apply andb_true_iff in Hsel as [H1 H2].
      apply negb_true_iff in H1. apply negb_true_iff in H2.
      apply bool_decide_eq_false in H2.
      split; [by left | done].
    + intros H. destruct (IH H) as [Hw [->|(Hin & ? & ?)]].
      * split; [done | by left].
      * split; [done|]. right. split; [by right | done].
Qed.

(** X21. When [main] goes on to analyse, the work is one of the four
    known works: the default [羅生門], or an argument that does not start
    with [--] and is not the model id. The model id is absent exactly when
    [--model] is not among the arguments, and otherwise it is the argument
    that follows the first [--model]. *)
Theorem main_arguments (argv : list str) (work : str) (model_id : option str) :
  main argv = QuickAnalyze work model_id →
  work ∈ works
  ∧ (work = RASHOMON
     ∨ (work ∈ drop 1 argv ∧ startswith (lit "--") work = false
        ∧ Some work ≠ model_id))
  ∧ (model_id = None ↔ lit "--model" ∉ argv)
  ∧ (∀ model, model_id = Some model →
       ∃ pre post, argv = pre ++ lit "--model" :: model :: post
                   ∧ lit "--model" ∉ pre).
Proof.
  unfold main.
  destruct (model_option argv) as [code|m] eqn:Hm; [done|].
  destruct (work_argument m (drop 1 argv)) as [code|w] eqn:Hw; [done|].
  intros H. injection H as -> ->.
  destruct (work_argument_spec _ _ _ Hw) as [Hin Hwork].
  split; [done|]. split; [done|].
  unfold model_option in Hm.
  destruct (decide (lit "--model" ∈ argv)) as [Hopt|Hopt].
  - destruct (list_index (lit "--model") argv) as [i|] eqn:Hi.
    + destruct (i + 1 <? length argv)%nat eqn:Hlt; [|done].
      injection Hm as <-. apply Nat.ltb_lt in Hlt.
      destruct (list_index_spec _ _ _ Hi) as (pre & post & -> & Hpre & <-).
      rewrite length_app in Hlt. simpl in Hlt.
      destruct post as [|model post]; [simpl in Hlt; lia|].
      replace (length pre + 1)%nat with (length pre + 1 + 0)%nat by lia.
      rewrite <- Nat.add_assoc.
      rewrite lookup_app_r by lia.
      replace (length pre + (1 + 0) - length pre)%nat with 1%nat by lia.
      simpl. split; [split; [done | by intros []]|].
      intros ? H. injection H as <-. eauto.
    + exfalso. clear -Hopt Hi.
      induction argv as [|y l IH]; [by apply elem_of_nil in Hopt|].
      simpl in Hi. destruct (decide (y = lit "--model")); [done|].
      destruct (list_index (lit "--model") l); [done|].
      apply IH; [|done]. by apply elem_of_cons in Hopt as [?|?].
  - injection Hm as <-. split; [done | done].
Qed.

(** X21 at [quick_test.py 坊っちゃん --model gpt-4o]. *)
Lemma main_arguments_witness :
  BOTCHAN ∈ works
  ∧ ∃ pre post,
      [lit "quick_test.py"; BOTCHAN; lit "--model"; lit "gpt-4o"]
      = pre ++ lit "--model" :: lit "gpt-4o" :: post
      ∧ lit "--model" ∉ pre.
Proof.
  destruct (main_arguments
              [lit "quick_test.py"; BOTCHAN; lit "--model"; lit "gpt-4o"]
              BOTCHAN (Some (lit "gpt-4o")) eq_refl)
    as (Hw & _ & _ & Hm).
  split; [exact Hw|]. by apply Hm.
Defined.

(** X22. [--model] as the last argument, with no value after it, makes
    [main] leave with exit status 1, whatever the other arguments are. *)
Theorem main_model_without_value (args : list str) :
  lit "--model" ∉ args →
  main (args ++ [lit "--model"]) = SysExit 1.
Proof.
  intros Hargs. unfold main, model_option.
  rewrite decide_True by (apply elem_of_app; right; by left).
  rewrite list_index_first by done.
  rewrite length_app. simpl.
  by assert ((length args + 1 <? length args + 1)%nat = false) as ->
    by (apply Nat.ltb_ge; lia).
Qed.

(** X22 at [quick_test.py 坊っちゃん --model]. *)
Lemma main_model_without_value_witness :
  main [lit "quick_test.py"; BOTCHAN; lit "--model"] = SysExit 1.
Proof.
  apply (main_model_without_value [lit "quick_test.py"; BOTCHAN]).
  vm_compute. intros H.
  repeat (apply elem_of_cons in H as [H|H]; [discriminate H|]).
  by apply elem_of_nil in H.
Defined.


(** ** The constructor *)

(** X24. A constructed extractor never holds an empty API key: its key is
    the non-empty value of [OPENAI_API_KEY] when the lowercased model id
    contains [gpt], and of [GOOGLE_API_KEY] otherwise; and the key of the
    other provider is never consulted: setting it to anything changes
    nothing. *)
Theorem init_api_key (str_lower : str → str) (environ : gmap str str)
    (model_id : option str) (value : str) :
  let model :=
    match model_id with
    | None => default (lit "gemini-2.0-flash-exp")
                      (environ !! lit "LANGEXTRACT_MODEL")
    | Some model_id => model_id
    end in
  let selected :=
    if contains (lit "gpt") (str_lower model)
    then lit "OPENAI_API_KEY" else lit "GOOGLE_API_KEY" in
  let other :=
    if contains (lit "gpt") (str_lower model)
    then lit "GOOGLE_API_KEY" else lit "OPENAI_API_KEY" in
  (∀ extractor,
     init str_lower environ model_id = inr extractor →
     extractor_model_id extractor = model
     ∧ extractor_api_key extractor ≠ []
     ∧ environ !! selected = Some (extractor_api_key extractor))
  ∧ init str_lower (<[other := value]> environ) model_id
    = init str_lower environ model_id.
Proof.
  cbn zeta. unfold init.
  assert (∀ other, other ≠ lit "LANGEXTRACT_MODEL" →
            match model_id with
            | None => default (lit "gemini-2.0-flash-exp")
                        (<[other := value]> environ !! lit "LANGEXTRACT_MODEL")
            | Some m => m
            end
            = match model_id with
              | None => default (lit "gemini-2.0-flash-exp")
                          (environ !! lit "LANGEXTRACT_MODEL")
              | Some m => m
              end) as Hmodel.
  { intros other Hne. destruct model_id; [done|]. by rewrite lookup_insert_ne. }
  set (model := match model_id with
                | None => default (lit "gemini-2.0-flash-exp")
                            (environ !! lit "LANGEXTRACT_MODEL")
                | Some m => m
                end) in *.
  destruct (contains (lit "gpt") (str_lower model)) eqn:Hgpt.
  - split.
    + intros extractor.
      destruct (environ !! lit "OPENAI_API_KEY") as [key|]; [|done].
      destruct key as [|c key]; [done|]. simpl.
      intros H. injection H as <-. done.
    + rewrite Hmodel by done. fold model. rewrite Hgpt.
      by rewrite lookup_insert_ne.
  - split.
    + intros extractor.
      destruct (environ !! lit "GOOGLE_API_KEY") as [key|]; [|done].
      destruct key as [|c key]; [done|]. simpl.
      intros H. injection H as <-. done.
    + rewrite Hmodel by done. fold model. rewrite Hgpt.
      by rewrite lookup_insert_ne.
Qed.
